(** * A chat relay server: session lifecycle and broadcast dispatch

    Shallow embedding of the Go server (package main: [ChatServer],
    [Client], [run], [sendUserList], [handleClient], [readPump],
    [writePump]) and the properties of its dispatch loop, its handshake
    and its two per-client pumps.

    The terminal client that talks to it (C, [main.c]) is embedded after
    the server, as far as it reads its input, sends on the socket and shows
    what it receives.

    Go strings are byte strings: [len] counts bytes and a [string] here is
    the sequence of its bytes (one [ascii] per byte). *)

From Stdlib Require Import NArith Ascii.
From stdpp Require Import gmap strings list fin_maps.

Open Scope string_scope.
Open Scope list_scope.
Open Scope nat_scope.
Open Scope stdpp_scope.

(** ** Byte strings *)

Definition bytes (s : string) : list N :=
  N_of_ascii <$> String.list_ascii_of_string s.

Definition of_bytes (l : list N) : string :=
  String.string_of_list_ascii (ascii_of_N <$> l).

(** The line terminator, byte 10. *)
Definition nl : string := String (ascii_of_N 10) "".

(** ** Go standard library: [strings.TrimSpace], [strings.Join], [len]

    [strings.TrimSpace] removes all leading and trailing white space, as
    defined by Unicode.  On a byte string this removes, from each end, the
    UTF-8 encodings of the code points having the White_Space property:
    the six ASCII ones of the library's [asciiSpace] table and the
    multi-byte ones accepted by [unicode.IsSpace]. *)

Definition white_space : list (list N) := Eval cbv in
  (fun w : list nat => N.of_nat <$> w) <$>
  [ [9]; [10]; [11]; [12]; [13]; [32]          (* \t \n \v \f \r and space *)
  ; [194; 133]; [194; 160]                     (* U+0085, U+00A0 *)
  ; [225; 154; 128]                            (* U+1680 *)
  ; [226; 128; 128]; [226; 128; 129]; [226; 128; 130]; [226; 128; 131]
  ; [226; 128; 132]; [226; 128; 133]; [226; 128; 134]; [226; 128; 135]
  ; [226; 128; 136]; [226; 128; 137]; [226; 128; 138]   (* U+2000..U+200A *)
  ; [226; 128; 168]; [226; 128; 169]; [226; 128; 175]   (* U+2028/9, U+202F *)
  ; [226; 129; 159]                            (* U+205F *)
  ; [227; 128; 128] ].                         (* U+3000 *)

(** [strip w s] is the rest of [s] after its prefix [w], if [w] is one. *)
Fixpoint strip (w s : list N) : option (list N) :=
  match w, s with
  | [], _ => Some s
  | _ :: _, [] => None
  | a :: w', b :: s' => if (a =? b)%N then strip w' s' else None
  end.

(** Removes the first of the sequences [ws] that [s] starts with. *)
Fixpoint drop_one (ws : list (list N)) (s : list N) : option (list N) :=
  match ws with
  | [] => None
  | w :: ws' =>
      match strip w s with
      | Some s' => Some s'
      | None => drop_one ws' s
      end
  end.

(** Removes leading sequences of [ws] for as long as there is one; every
    round removes at least one byte, so [length s] rounds are enough. *)
Fixpoint trim_loop (ws : list (list N)) (fuel : nat) (s : list N) : list N :=
  match fuel with
  | O => s
  | S fuel' =>
      match drop_one ws s with
      | Some s' => trim_loop ws fuel' s'
      | None => s
      end
  end.

Definition trim_left (s : list N) : list N :=
  trim_loop white_space (length s) s.

(** Trailing white space: the same loop on the reversed string, against
    the reversed encodings. *)
Definition trim_right (s : list N) : list N :=
  reverse (trim_loop (reverse <$> white_space) (length s) (reverse s)).

Definition TrimSpace (s : string) : string :=
  of_bytes (trim_right (trim_left (bytes s))).

(** [len(s)]: the number of bytes of [s]. *)
Definition len (s : string) : nat := String.length s.

(** [strings.Join(elems, sep)]. *)
Fixpoint Join (elems : list string) (sep : string) : string :=
  match elems with
  | [] => ""
  | [e] => e
  | e :: rest => e +:+ sep +:+ Join rest sep
  end.

(** ** Wall-clock time and [time.Now().Format("15:04:05")] *)

Record Clock := mkClock { hour : nat; minute : nat; second : nat }.

Definition digit (n : nat) : string :=
  String (ascii_of_nat (48 + n mod 10)) "".

(** A two-digit, zero-padded field of the layout. *)
Definition two_digits (n : nat) : string :=
  digit (n / 10) +:+ digit n.

Definition Format (now : Clock) : string :=
  two_digits (hour now) +:+ ":" +:+ two_digits (minute now) +:+ ":" +:+
  two_digits (second now).

(** ** Data model *)

Definition MAX_CLIENTS : nat := 50.

(** A [*Client].  The pointer is identified with the record: [conn] is the
    connection handle, unique to one accepted connection, [name] is set
    once at the handshake.  The mutable parts the pointer gives access to
    (the [messages] channel, the state of the connection) live in the
    store of [ChatServer] below, keyed by the client. *)
Record Client := mkClient { conn : nat; name : string }.

#[global] Instance Client_eq_dec : EqDecision Client.
Proof. solve_decision. Defined.

#[global] Instance Client_countable : Countable Client.
Proof.
  refine (inj_countable' (fun c => (conn c, name c))
                         (fun p => mkClient p.1 p.2) _).
  by intros [].
Defined.

(** The three channels the dispatch loop selects on carry these. *)
Inductive Event :=
  | Register (client : Client)
  | Unregister (client : Client)
  | Broadcast (message : string).

#[global] Instance Event_eq_dec : EqDecision Event.
Proof. solve_decision. Defined.

(** A [chan string] made with capacity 256: its buffered values, oldest
    first, and whether it has been closed. *)
Record Chan := mkChan { buf : list string; closed : bool }.

Definition capacity : nat := 256.

(** Who called [Close] on a connection. *)
Inductive Closer := ByRun | ByWritePump.

#[global] Instance Closer_eq_dec : EqDecision Closer.
Proof. solve_decision. Defined.

(** What a [*Client] points to besides its immutable name: the [messages]
    channel; the connection, as the [Close] calls made on it and the data
    handed to its [Write] by [writePump], both oldest first; and whether
    the client's [writePump] goroutine has returned. *)
Record Peer := mkPeer {
  messages : Chan;
  closes : list Closer;
  writes : list string;
  writer_done : bool
}.

(** The client as [handleClient] builds it: [make(chan string, 256)] on a
    connection nobody has closed. *)
Definition new_peer : Peer := mkPeer (mkChan [] false) [] [] false.

(** The server and the clients it points to.  [clients] is
    [server.clients]; [heap] holds what the client pointers point to (a
    client absent from it is as [handleClient] built it).  The channels
    [register], [unregister] and [broadcast] are made without capacity
    ([make(chan string)], [make(chan *Client)]), so they hold nothing: a
    send on one completes only when [run] is at its [select] to receive
    it.  [pending] are the texts [run] still has to send on
    [server.broadcast] in the case it is executing, the first one being
    the send it is executing now; [run] is at its [select] exactly when
    [pending] is empty. *)
Record ChatServer := mkServer {
  clients : gmap Client bool;
  pending : list string;
  heap : gmap Client Peer
}.

Definition NewChatServer : ChatServer := mkServer ∅ [] ∅.

Definition peer (st : ChatServer) (client : Client) : Peer :=
  default new_peer (heap st !! client).

Definition set_peer (client : Client) (p : Peer) (st : ChatServer) : ChatServer :=
  mkServer (clients st) (pending st) (<[client := p]> (heap st)).

(** Go leaves the order of [for client := range server.clients]
    unspecified: any enumeration of the keys, each once. *)
Class MapRange := {
  range : gmap Client bool → list Client;
  range_perm : ∀ m, range m ≡ₚ (map_to_list m).*1
}.

(** One such order, used to run the model on concrete inputs. *)
#[global] Program Instance key_order : MapRange :=
  {| range m := (map_to_list m).*1 |}.
Next Obligation. done. Qed.

(** ** The dispatch loop, [run] *)

Definition joinMsg (client : Client) : string :=
  "*** " +:+ name client +:+ " has joined the chat ***".

Definition leaveMsg (client : Client) : string :=
  "*** " +:+ name client +:+ " has left the chat ***".

Definition userList (users : list string) : string :=
  "*** Online users: " +:+ Join users ", " +:+ " ***".

(** [delete(server.clients, client); close(client.messages);
    client.conn.Close()], the same three statements in the [unregister]
    case and in the [default] branch of the [broadcast] case.  Closing a
    channel keeps what it has buffered. *)
Definition teardown (client : Client) (st : ChatServer) : ChatServer :=
  let p := peer st client in
  mkServer (delete client (clients st)) (pending st)
    (<[client := mkPeer (mkChan (buf (messages p)) true)
                        (closes p ++ [ByRun]) (writes p) (writer_done p)]>
       (heap st)).

(** The body of the [broadcast] loop for one client: the non-blocking
    send [select { case client.messages <- message: default: ... }].
    A send on a closed channel panics ([None]). *)
Definition deliver (message : string) (st : ChatServer) (client : Client)
  : option ChatServer :=
  let p := peer st client in
  if closed (messages p) then None
  else if (length (buf (messages p)) <? capacity)%nat then
    Some (set_peer client
            (mkPeer (mkChan (buf (messages p) ++ [message]) false)
                    (closes p) (writes p) (writer_done p)) st)
  else Some (teardown client st).

(** [for client := range server.clients { ... }] along the order the
    iteration takes.  Deleting the current key while ranging is allowed
    in Go and does not disturb the visit of the others. *)
Fixpoint fan_out (message : string) (order : list Client) (st : ChatServer)
  : option ChatServer :=
  match order with
  | [] => Some st
  | client :: rest =>
      match deliver message st client with
      | Some st' => fan_out message rest st'
      | None => None
      end
  end.

(** What a step of a goroutine comes to. *)
Inductive Outcome :=
  | Next (st : ChatServer)   (* the step is taken *)
  | Panic                    (* a run-time panic: the process dies *)
  | NoStep.                  (* the goroutine cannot take this step now *)

Section Dispatch.
Context {R : MapRange}.

(** [sendUserList], as the sends on [server.broadcast] it makes. *)
Definition sendUserList (cs : gmap Client bool) : list string :=
  let users := name <$> range cs in
  if (0 <? length users)%nat then [userList users] else [].

(** One round of the [for { select { ... } }] of [run], on the event its
    [select] receives.  A case runs up to its first send on
    [server.broadcast]: that channel is unbuffered and its only receive
    in the program is this very [select], which [run] is not at while
    it executes a case; the texts the case has to send are left in
    [pending].  While [pending] is not empty [run] receives nothing. *)
Definition run (ev : Event) (st : ChatServer) : Outcome :=
  match pending st with
  | _ :: _ => NoStep
  | [] =>
      match ev with
      | Register client =>
          let cs := <[client := true]> (clients st) in
          Next (mkServer cs (joinMsg client :: sendUserList cs) (heap st))
      | Unregister client =>
          match clients st !! client with
          | Some _ =>
              if closed (messages (peer st client)) then Panic
              else
                let st' := teardown client st in
                Next (mkServer (clients st')
                        (leaveMsg client :: sendUserList (clients st'))
                        (heap st'))
          | None =>
              Next (mkServer (clients st)
                      (leaveMsg client :: sendUserList (clients st))
                      (heap st))
          end
      | Broadcast message =>
          match fan_out message (range (clients st)) st with
          | Some st' => Next st'
          | None => Panic
          end
      end
  end.
End Dispatch.

(** ** The outbound pump, [writePump] *)

(** [message + "\n"], what [writePump] writes for a queued text. *)
Definition line (message : string) : string := message +:+ nl.

(** One round of the loop of [client]'s [writePump]; [net_ok] tells
    whether the network takes the write.  A receive from the channel
    yields the oldest buffered value, also after the channel was closed;
    on a closed and empty channel it yields [ok = false]; on an open and
    empty one it blocks.  A [Write] on a closed connection fails.  When
    the function returns, its deferred [client.conn.Close()] runs. *)
Definition writePump (client : Client) (net_ok : bool) (st : ChatServer)
  : Outcome :=
  let p := peer st client in
  if writer_done p then NoStep
  else
    match buf (messages p) with
    | message :: rest =>
        let ch := mkChan rest (closed (messages p)) in
        let ws := writes p ++ [line message] in
        if net_ok && bool_decide (closes p = []) then
          Next (set_peer client (mkPeer ch (closes p) ws false) st)
        else
          Next (set_peer client
                  (mkPeer ch (closes p ++ [ByWritePump]) ws true) st)
    | [] =>
        if closed (messages p) then
          Next (set_peer client
                  (mkPeer (messages p) (closes p ++ [ByWritePump])
                          (writes p) true) st)
        else NoStep
    end.

(** ** The goroutines together *)

(** The steps that change the server and its clients: [run] receiving an
    event, and a round of a writer.  (The one send a handshake makes on a
    client's channel, of the welcome banner, is not among them: the
    banner is in the channel or not in the state a schedule starts
    from.) *)
Inductive Action :=
  | Recv (ev : Event)
  | Pump (client : Client) (net_ok : bool).

Section System.
Context {R : MapRange}.

Definition step (a : Action) (st : ChatServer) : Outcome :=
  match a with
  | Recv ev => run ev st
  | Pump client net_ok => writePump client net_ok st
  end.

(** A schedule of steps, each taken from the state the previous one
    left. *)
Fixpoint exec (tr : list Action) (st : ChatServer) : Outcome :=
  match tr with
  | [] => Next st
  | a :: tr' =>
      match step a st with
      | Next st' => exec tr' st'
      | o => o
      end
  end.
End System.

(** ** The acceptor, [handleClient] *)

(** What [handleClient] does to the outside, in program order. *)
Inductive Effect :=
  | ConnWrite (data : string)                  (* [conn.Write] *)
  | ConnClose                                  (* the deferred [conn.Close()] *)
  | SendRegister (client : Client)             (* [server.register <- client] *)
  | SendWelcome (client : Client) (msg : string) (* [client.messages <- welcomeMsg] *)
  | GoWritePump (client : Client)
  | GoReadPump (client : Client)
  | Park.                                      (* [select {}]: never returns *)

#[global] Instance Effect_eq_dec : EqDecision Effect.
Proof. solve_decision. Defined.

Definition welcomeMsg (name : string) : string :=
  "=== Welcome to Go Chat Server ===" +:+ nl +:+
  "Your username: " +:+ name +:+ nl +:+
  "Type 'exit' to quit" +:+ nl +:+
  "===================================" +:+ nl +:+ nl.

(** [handleClient(conn)].  [reply] is what [reader.ReadString] returned for
    the user name: [Some] of the line, delimiter included, or [None] when
    it returned an error.  [st] is the server at the time of the capacity
    check, of which only [len(server.clients)] is read. *)
Definition handleClient (st : ChatServer) (conn : nat) (reply : option string)
  : list Effect :=
  ConnWrite "Enter your username: " ::
  match reply with
  | None => [ConnClose]
  | Some line =>
      let name := TrimSpace line in
      if (len name <? 2) || (32 <? len name) then
        [ConnWrite ("Username must be 2-32 characters." +:+ nl); ConnClose]
      else
        let client := mkClient conn name in
        let clientCount := size (clients st) in
        if MAX_CLIENTS <=? clientCount then
          [ConnWrite ("Server is full. Try again later." +:+ nl); ConnClose]
        else
          [SendRegister client; SendWelcome client (welcomeMsg name);
           GoWritePump client; GoReadPump client; Park]
  end.

(** ** The inbound pump, [readPump] *)

(** What one [reader.ReadString] of the loop returns: a line, delimiter
    included, together with the wall clock at that moment, or an error. *)
Inductive Read :=
  | ReadLine (line : string) (now : Clock)
  | ReadErr.

Definition formattedMsg (now : Clock) (client : Client) (message : string)
  : string :=
  "[" +:+ Format now +:+ "] " +:+ name client +:+ ": " +:+ message.

(** [readPump(client)] on the reads it is given, as the events it sends to
    the dispatch loop, in order.  At the end of the reads the pump is
    waiting in [ReadString].  The deferred [server.unregister <- client]
    runs when the loop is left. *)
Fixpoint readPump (client : Client) (reads : list Read) : list Event :=
  match reads with
  | [] => []
  | ReadErr :: _ => [Unregister client]
  | ReadLine line now :: reads' =>
      let message := TrimSpace line in
      if decide (message = "exit") then [Unregister client]
      else if 0 <? len message then
        Broadcast (formattedMsg now client message) :: readPump client reads'
      else readPump client reads'
  end.

(** ** Notions the properties are stated with *)

(** Every member's channel is open, as it is for clients that were
    registered once, as [handleClient] made them. *)
Definition members_open (st : ChatServer) : Prop :=
  map_Forall (λ client _, closed (messages (peer st client)) = false)
             (clients st).

#[global] Instance members_open_dec st : Decision (members_open st).
Proof. unfold members_open. apply _. Defined.

(** [run] is at its [select] and every member's channel is open. *)
Definition ready (st : ChatServer) : Prop :=
  pending st = [] ∧ members_open st.

(** The lines that went or will go to a client's connection: what
    [writePump] handed to [Write], then what waits in the channel. *)
Definition observed (st : ChatServer) (client : Client) : list string :=
  writes (peer st client) ++ (line <$> buf (messages (peer st client))).

(** The texts of the [Broadcast] events [run] receives in a schedule, in
    the order it receives them. *)
Fixpoint processed (tr : list Action) : list string :=
  match tr with
  | [] => []
  | Recv (Broadcast message) :: tr' => message :: processed tr'
  | _ :: tr' => processed tr'
  end.

Definition is_pump (a : Action) : Prop :=
  match a with Pump _ _ => True | Recv _ => False end.

(** Steps that are broadcasts or rounds of writers: no membership event. *)
Definition relays (a : Action) : Prop :=
  match a with
  | Recv (Register _) | Recv (Unregister _) => False
  | _ => True
  end.

(** A peer after a broadcast of [message] reached it ([sent]), after it
    was torn down ([torn]), and after the loop body of the [broadcast]
    case ([after]). *)
Definition sent (message : string) (p : Peer) : Peer :=
  mkPeer (mkChan (buf (messages p) ++ [message]) false)
         (closes p) (writes p) (writer_done p).

Definition torn (p : Peer) : Peer :=
  mkPeer (mkChan (buf (messages p)) true)
         (closes p ++ [ByRun]) (writes p) (writer_done p).

Definition full (p : Peer) : Prop := capacity ≤ length (buf (messages p)).

Definition after (message : string) (p : Peer) : Peer :=
  if decide (full p) then torn p else sent message p.

(** The server with [client] left out of the live set. *)
Definition without (client : Client) (st : ChatServer) : ChatServer :=
  mkServer (delete client (clients st)) (pending st) (heap st).


(** The number of characters of UTF-8 text: its bytes that are not
    continuation bytes [10xxxxxx]. *)
Definition characters (s : string) : nat :=
  length (filter (λ b, ¬ (128 ≤ b < 192)%N) (bytes s)).

(** A byte string that is a run of the sequences [ws]. *)
Inductive chain (ws : list (list N)) : list N → Prop :=
  | chain_nil : chain ws []
  | chain_cons w s : w ∈ ws → chain ws s → chain ws (w ++ s).

(** A byte string made of white space only. *)
Definition blank (s : list N) : Prop := chain white_space s.

(** The ways a step can bear on a client [c]: not at all; by registering
    it; by sending it a broadcast; by tearing it down; by a round of its
    writer, which moves a line and may end with a [Close]. *)
Inductive touched (c : Client) (a : Action) (st st' : ChatServer) : Prop :=
  | touched_not :
      peer st' c = peer st c → clients st' !! c = clients st !! c →
      touched c a st st'
  | touched_register :
      a = Recv (Register c) → peer st' c = peer st c →
      clients st' !! c = Some true → touched c a st st'
  | touched_sent message :
      a = Recv (Broadcast message) → is_Some (clients st !! c) →
      peer st' c = sent message (peer st c) →
      clients st' !! c = clients st !! c → touched c a st st'
  | touched_torn :
      ¬ is_pump a → is_Some (clients st !! c) →
      peer st' c = torn (peer st c) → clients st' !! c = None →
      touched c a st st'
  | touched_pump net_ok :
      a = Pump c net_ok → clients st' !! c = clients st !! c →
      observed st' c = observed st c →
      writer_done (peer st c) = false →
      (closes (peer st' c) = closes (peer st c) ∧
       writer_done (peer st' c) = false) ∨
      (closes (peer st' c) = closes (peer st c) ++ [ByWritePump] ∧
       writer_done (peer st' c) = true) →
      touched c a st st'.


(** ** Further notions *)

(** A text that holds no line terminator. *)
Definition one_line (s : string) : Prop := 10%N ∉ bytes s.

(** A step in which [run] receives a registration. *)
Definition is_register (a : Action) : Prop :=
  match a with Recv (Register _) => True | _ => False end.

(** A client is in the live set with its channel open, or out of it with its
    channel closed and its connection closed by [run]. *)
Definition in_or_released (c : Client) (st : ChatServer) : Prop :=
  (is_Some (clients st !! c) ∧ closed (messages (peer st c)) = false) ∨
  (clients st !! c = None ∧ closed (messages (peer st c)) = true ∧
   ByRun ∈ closes (peer st c)).

(** A read that ends the loop: an error, or a line that trims to ["exit"]. *)
Definition stops (r : Read) : Prop :=
  match r with
  | ReadErr => True
  | ReadLine line _ => TrimSpace line = "exit"
  end.

#[global] Instance stops_dec r : Decision (stops r).
Proof. destruct r; simpl; apply _. Defined.

(** A read as [ReadString] gives it: an error, or a text with no line
    terminator in it followed by one. *)
Definition whole_line (r : Read) : Prop :=
  match r with
  | ReadErr => True
  | ReadLine line _ => ∃ content, line = content +:+ nl ∧ one_line content
  end.

(** A broadcast whose text is one line; the other events qualify as they
    are. *)
Definition one_line_event (ev : Event) : Prop :=
  match ev with Broadcast text => one_line text | _ => True end.

(** Every member's name is free of line terminators. *)
Definition named_on_one_line (cs : gmap Client bool) : Prop :=
  map_Forall (λ client _, one_line (name client)) cs.

(** A registration or a deregistration of [client]. *)
Definition membership_event (ev : Event) (client : Client) : Prop :=
  ev = Register client ∨ ev = Unregister client.

(** The connection of a client was closed, and its writer has made at most
    one attempt to write since, its last. *)
Definition winding_down (c : Client) (n : nat) (st : ChatServer) : Prop :=
  closes (peer st c) ≠ [] ∧
  (length (writes (peer st c)) = n ∨
   (length (writes (peer st c)) = S n ∧ writer_done (peer st c) = true)).

(** A visible ASCII byte. *)
Definition visible (b : N) : Prop := (33 ≤ b ≤ 126)%N.

(** A text that starts and ends with a visible ASCII byte. *)
Definition plain (s : string) : Prop :=
  (∃ b, head (bytes s) = Some b ∧ visible b) ∧
  (∃ b, last (bytes s) = Some b ∧ visible b).

(** ** The handshakes beside the engine *)

(** [client.messages <- welcomeMsg], the send [handleClient] makes on the
    client's channel once [run] has received its registration.  A send on
    a closed channel panics; on a full one it waits. *)
Definition welcome (client : Client) (st : ChatServer) : Outcome :=
  let p := peer st client in
  if closed (messages p) then Panic
  else if (length (buf (messages p)) <? capacity)%nat then
    Next (set_peer client (sent (welcomeMsg (name client)) p) st)
  else NoStep.

(** The steps of the whole program: those of [run] and of the writers,
    and the banner sends of the handshakes. *)
Inductive Move :=
  | Engine (a : Action)
  | Welcome (client : Client).

(** [due] without one occurrence of [client]. *)
Fixpoint take_out (client : Client) (due : list Client) : list Client :=
  match due with
  | [] => []
  | c :: due' => if decide (c = client) then due' else c :: take_out client due'
  end.

Section Handshakes.
Context {R : MapRange}.

(** A schedule of the whole program.  [due] holds the clients whose
    handshake is between its two sends: [run] has received the
    registration, the banner is not sent yet.  A handshake sends its
    banner only then, and once. *)
Fixpoint play (tr : list Move) (due : list Client) (st : ChatServer) : Outcome :=
  match tr with
  | [] => Next st
  | Engine a :: tr' =>
      match step a st with
      | Next st' =>
          play tr' (match a with
                    | Recv (Register client) => due ++ [client]
                    | _ => due
                    end) st'
      | o => o
      end
  | Welcome client :: tr' =>
      if decide (client ∈ due) then
        match welcome client st with
        | Next st' => play tr' (take_out client due) st'
        | o => o
        end
      else NoStep
  end.
End Handshakes.

(** * The terminal client

    Shallow embedding of the C client ([main.c]: [main], [process_command],
    [receive_messages], [cleanup]) as far as it talks to the server: what
    it sends on the socket and what it shows of what it receives.  A C
    string is the bytes of a buffer before its first NUL. *)

(** The two bytes the client tests for: the terminator of a C string and the
    line terminator. *)
Definition NUL : ascii := ascii_of_N 0.
Definition LF : ascii := ascii_of_N 10.

(** The C string a buffer holds: its bytes before the first NUL. *)
Fixpoint c_str (buf : string) : string :=
  match buf with
  | "" => ""
  | String a rest => if Ascii.eqb a NUL then "" else String a (c_str rest)
  end.

(** [fgets(buf, n + 1, stdin)]: the bytes it stores, at most [n], up to the
    first line terminator and with it. *)
Fixpoint fgets (n : nat) (stdin : string) : string :=
  match n, stdin with
  | S n', String a rest =>
      if Ascii.eqb a LF then String a "" else String a (fgets n' rest)
  | _, _ => ""
  end.

(** [s[strcspn(s, "\n")] = 0]: the C string [s] cut at its first line
    terminator. *)
Fixpoint cut_newline (s : string) : string :=
  match s with
  | "" => ""
  | String a rest => if Ascii.eqb a LF then "" else String a (cut_newline rest)
  end.

(** [snprintf(buf, size, "%s\n", s)]: [s] and a line terminator, cut to
    [size - 1] bytes. *)
Definition snprintf_line (size : nat) (s : string) : string :=
  String.substring 0 (size - 1) (s +:+ nl).

(** The user name [main] reads from its standard input. *)
Definition read_username (stdin : string) : string :=
  cut_newline (c_str (fgets 63 stdin)).

(** What [main] sends first once connected, or [None] when it returns 1. *)
Definition client_hello (stdin : string) : option string :=
  let username := read_username stdin in
  if (len username <? 2) || (32 <? len username) then None
  else Some (snprintf_line 128 username).

(** What [process_command] puts on the screen. *)
Inductive Shown :=
  | HelpText                        (* [show_help] *)
  | ChatCleared                     (* the chat window erased *)
  | NameDialog                      (* [change_username] *)
  | TimeOfDay                       (* [show_time] *)
  | StatusReport                    (* [show_status] *)
  | UnknownCommand (msg : string).

(** [process_command(msg)]: what it puts on the screen, and whether it
    returns 1. Nothing in it touches the socket. *)
Definition process_command (msg : string) : option Shown * bool :=
  if decide (msg = "/help") then (Some HelpText, false)
  else if decide (msg = "/quit") then (None, true)
  else if decide (msg = "/clear") then (Some ChatCleared, false)
  else if decide (msg = "/name") then (Some NameDialog, false)
  else if decide (msg = "/time") then (Some TimeOfDay, false)
  else if decide (msg = "/status") then (Some StatusReport, false)
  else (Some (UnknownCommand msg), false).

(** How a [send] ends. *)
Inductive SendResult :=
  | SendOk
  | SendBroken       (* failed with EPIPE or ECONNRESET *)
  | SendFailed.      (* failed with another error *)

(** One turn of the loop of [main]: the value of [connected] at the loop
    test, what [mvwgetnstr] left in [msg], and how the [send] of the turn
    ends, when one is made. *)
Record Round := mkRound {
  connected_now : bool;
  typed : string;
  send_result : SendResult
}.

(** [msg[0] == '/']. *)
Definition is_command (msg : string) : bool :=
  match msg with
  | String a _ => Ascii.eqb a "/"
  | "" => false
  end.

(** What [cleanup] sends before it closes the socket. *)
Definition goodbye : string := "exit" +:+ nl.

(** The [while] loop of [main] on the turns it is given, as what it passes
    to [send] on the socket, in order. At the end of the turns the loop is
    waiting in [mvwgetnstr]. When the loop is left [cleanup(0)] runs and
    sends [goodbye]. A [send] that fails leaves the loop only on EPIPE or
    ECONNRESET. *)
Fixpoint main_loop (rounds : list Round) : list string :=
  match rounds with
  | [] => []
  | r :: rounds' =>
      if negb (connected_now r) then [goodbye]
      else
        let msg := typed r in
        if len msg =? 0 then main_loop rounds'
        else if is_command msg then
          if snd (process_command msg) then [goodbye] else main_loop rounds'
        else
          snprintf_line 300 msg ::
          match send_result r with
          | SendBroken => [goodbye]
          | SendOk | SendFailed => main_loop rounds'
          end
  end.

(** What [mvwgetnstr(..., msg, 200)] leaves in [msg]: at most 200 bytes,
    none of them a line terminator. *)
Definition sendable (msg : string) : Prop :=
  len msg ≤ 200 ∧ one_line msg.

(** A turn after which [main] leaves its loop. *)
Definition ends_loop (r : Round) : Prop :=
  connected_now r = false ∨ typed r = "/quit" ∨
  (typed r ≠ "" ∧ is_command (typed r) = false ∧ send_result r = SendBroken).

(** What one [recv] of [receive_messages] returns. *)
Inductive RecvResult :=
  | Chunk (data : string)     (* [bytes_received > 0] *)
  | Eof                       (* [bytes_received == 0] *)
  | RecvError.                (* [bytes_received < 0] *)

(** What the receive thread puts on the screen. *)
Inductive Screen :=
  | Chat (text : string)                            (* [wprintw(chatwin, ...)] *)
  | StatusBar (status : string) (is_error : bool).  (* [update_status] *)

(** [if (buffer[n - 1] == '\n') buffer[n - 1] = '\0'] on the [n] bytes
    received. *)
Fixpoint end_line (buffer : string) : string :=
  match buffer with
  | "" => ""
  | String a "" => if Ascii.eqb a LF then String NUL "" else String a ""
  | String a rest => String a (end_line rest)
  end.

(** [receive_messages] on the results of its [recv] calls. *)
Fixpoint receive_messages (recvs : list RecvResult) : list Screen :=
  match recvs with
  | [] => []
  | Chunk data :: recvs' =>
      Chat (c_str (end_line data) +:+ nl) :: receive_messages recvs'
  | Eof :: _ => [StatusBar "Server disconnected" true]
  | RecvError :: _ => [StatusBar "Connection error" true]
  end.

(** A text with no NUL byte. *)
Definition nul_free (s : string) : Prop := 0%N ∉ bytes s.

(** The bytes [writePump] writes for the texts of a queue. *)
Fixpoint written (messages : list string) : string :=
  match messages with
  | [] => ""
  | message :: rest => line message +:+ written rest
  end.

(** ** Sample inputs *)

Definition al : Client := mkClient 1 "al".
Definition bob : Client := mkClient 2 "bob".

(** [bob] alone in the room, [run] at its [select]. *)
Definition room_bob : ChatServer := mkServer {[bob := true]} [] ∅.

(** [al] and [bob] in the room, the channel of [bob] full: his writer
    has not taken any of 256 texts. *)
Definition room_bob_stalled : ChatServer :=
  mkServer {[al := true; bob := true]} []
    {[bob := mkPeer (mkChan (replicate 256 "x") false) [] [] false]}.

(** [al] and [bob] in the room, nothing queued. *)
Definition room_al_bob : ChatServer := mkServer {[al := true; bob := true]} [] ∅.

(** The state a step or schedule ends in, for the sample runs. *)
Definition final (o : Outcome) : ChatServer :=
  match o with Next st => st | _ => NewChatServer end.

(** Two broadcasts, the writer of [al] taking a line in between. *)
Definition two_broadcasts : list Action :=
  [Recv (Broadcast "one"); Pump al true; Recv (Broadcast "two")].

(** [bob] is deregistered, then his writer runs a round. *)
Definition bob_leaves : list Action := [Recv (Unregister bob); Pump bob true].

(** A full room: fifty members. *)
Definition room_full : ChatServer :=
  mkServer (list_to_map ((λ i, (mkClient i "guest", true)) <$> seq 0 50)) [] ∅.

(** The one-character name U+00E9 (e with acute accent): two bytes of
    UTF-8. *)
Definition e_acute : string :=
  String (ascii_of_N 195) (String (ascii_of_N 169) "").

(** The clock of scenario E. *)
Definition five_past_two : Clock := mkClock 14 5 9.

(** [al] arrives at the fresh server after a chat line for nobody: the
    registration, the banner, a round of the writer of [al]. *)
Definition first_arrival : list Move :=
  [Engine (Recv (Broadcast "hi")); Engine (Recv (Register al));
   Welcome al; Engine (Pump al true)].

(** After the broadcast that dropped a client: a round of the writer of
    [al], then a second broadcast. *)
Definition after_the_drop : list Action :=
  [Pump al true; Recv (Broadcast "again")].

(** [al] and [bob] in the room, the text [one] queued for both. *)
Definition room_one_queued : ChatServer :=
  final (exec (R := key_order) [Recv (Broadcast "one")] room_al_bob).

(** The room [bob] was alone in, after his deregistration. *)
Definition room_bob_gone : ChatServer :=
  final (exec (R := key_order) [Recv (Unregister bob)] room_bob).

(** A user who says hello, opens the name dialog and quits. *)
Definition chat_session : list Round :=
  [mkRound true "hello" SendOk; mkRound true "/name" SendOk;
   mkRound true "/quit" SendOk].

(** A user who types commands and an empty line only. *)
Definition only_commands : list Round :=
  [mkRound true "/name" SendOk; mkRound true "" SendOk;
   mkRound true "/quit" SendOk].

(** A chat line typed with a space on either side. *)
Definition padded_hello : Round := mkRound true " hello " SendOk.

(** ** Tactics *)

(** Readiness of a concrete state, by computation. *)
Ltac ready_by_compute :=
  split; [reflexivity | refine (bool_decide_unpack _ _); vm_compute; exact I].

(** A list of effects that holds no registration. *)
Ltac no_register :=
  let H := fresh in
  intros ? H;
  repeat (apply elem_of_cons in H as [H|H]; [discriminate H|]);
  by apply elem_of_nil in H.

(** A literal text has no line terminator. *)
Ltac no_newline :=
  let H := fresh in
  unfold one_line; vm_compute; intros H;
  repeat (apply elem_of_cons in H as [H|H]; [discriminate H|]);
  by apply elem_of_nil in H.

(** * Properties *)

(** ** The store *)

Lemma peer_set_peer client p st c :
  peer (set_peer client p st) c = if decide (client = c) then p else peer st c.
Proof.
  unfold peer, set_peer; simpl. rewrite lookup_insert.
  by destruct (decide (client = c)).
Qed.

Lemma peer_teardown client st c :
  peer (teardown client st) c =
  if decide (client = c) then torn (peer st client) else peer st c.
Proof.
  unfold peer at 1, teardown; simpl. rewrite lookup_insert.
  by destruct (decide (client = c)).
Qed.


Lemma observed_peer st st' c : peer st' c = peer st c → observed st' c = observed st c.
Proof. unfold observed. by intros ->. Qed.

(** ** The order of a range *)

Section Range.
Context {R : MapRange}.

Lemma elem_of_range (m : gmap Client bool) c : c ∈ range m ↔ is_Some (m !! c).
Proof.
  rewrite range_perm, list_elem_of_fmap. split.
  - intros [[k v] [-> Hkv]]. apply elem_of_map_to_list in Hkv. by exists v.
  - intros [v Hv]. exists (c, v). split; [done|]. by apply elem_of_map_to_list.
Qed.

Lemma NoDup_range (m : gmap Client bool) : NoDup (range m).
Proof. rewrite range_perm. apply NoDup_fst_map_to_list. Qed.

Lemma length_range (m : gmap Client bool) : length (range m) = size m.
Proof. by rewrite range_perm, length_fmap, length_map_to_list. Qed.

(** The roster [sendUserList] sends, if any, lists the names of the
    members, each member once, in the order of its range. *)
Lemma sendUserList_spec (cs : gmap Client bool) :
  (cs = ∅ ∧ sendUserList cs = []) ∨
  (cs ≠ ∅ ∧ sendUserList cs = [userList (name <$> range cs)]).
Proof.
  unfold sendUserList. rewrite length_fmap, length_range.
  destruct (decide (cs = ∅)) as [->|Hne].
  - left. by rewrite map_size_empty.
  - right. split; [done|].
    assert (size cs ≠ 0) by (by intros ?%map_size_empty_inv).
    by destruct (size cs).
Qed.
End Range.

(** ** A writer only moves lines from the channel to the connection *)

Lemma writePump_spec client net_ok st st' :
  writePump client net_ok st = Next st' →
  clients st' = clients st ∧ pending st' = pending st ∧
  (∀ c, c ≠ client → peer st' c = peer st c) ∧
  observed st' client = observed st client ∧
  closed (messages (peer st' client)) = closed (messages (peer st client)).
Proof.
  unfold writePump. intros H.
  destruct (writer_done (peer st client)) eqn:Hd; [done|].
  destruct (buf (messages (peer st client))) as [|message rest] eqn:Hb.
  - destruct (closed (messages (peer st client))) eqn:Hcl; [|done].
    injection H as <-. split; [done|]. split; [done|]. split; [|split].
    + intros c Hc. rewrite peer_set_peer. by destruct (decide (client = c)).
    + unfold observed. rewrite peer_set_peer, decide_True by done. done.
    + rewrite peer_set_peer, decide_True by done. done.
  - assert (∀ cl d, observed (set_peer client
        (mkPeer (mkChan rest (closed (messages (peer st client)))) cl
                (writes (peer st client) ++ [line message]) d) st) client
        = observed st client) as Hobs.
    { intros cl d. unfold observed. rewrite peer_set_peer, decide_True by done.
      simpl. rewrite Hb. simpl. by rewrite <- app_assoc. }
    destruct (net_ok && bool_decide (closes (peer st client) = []));
      injection H as <-; (split; [done|]; split; [done|]; split; [|split; [apply Hobs|]]);
      try (intros c Hc; rewrite peer_set_peer; by destruct (decide (client = c)));
      by rewrite peer_set_peer, decide_True.
Qed.

(** ** Once [run] has something to send, it stays where it is *)

Section Blocked.
Context {R : MapRange}.

Lemma run_pending ev st : pending st ≠ [] → run ev st = NoStep.
Proof. unfold run. by destruct (pending st). Qed.

Lemma exec_pending tr : ∀ st st',
  pending st ≠ [] → exec tr st = Next st' →
  Forall is_pump tr ∧ clients st' = clients st ∧ pending st' = pending st ∧
  ∀ c, observed st' c = observed st c.
Proof.
  induction tr as [|a tr IH]; intros st st' Hp H; simpl in H.
  - by injection H as <-.
  - destruct a as [ev|client net_ok]; simpl in H.
    + by rewrite run_pending in H.
    + destruct (writePump client net_ok st) as [st1| |] eqn:Hw; try done.
      apply writePump_spec in Hw as (Hc & Hq & Hothers & Hobs & _).
      destruct (IH st1 st') as (Htr & Hc' & Hq' & Hobs'); [congruence|done|].
      split; [by constructor|]. split; [congruence|]. split; [congruence|].
      intros c. rewrite Hobs'. destruct (decide (c = client)) as [->|Hne]; [done|].
      by apply observed_peer, Hothers.
Qed.
End Blocked.

(** C3: on [Register(s)] the loop adds [s] to the live set and has the
    join announcement and then the roster to send, in this order, but it
    sends neither: it stops in the send of the join announcement, on the
    unbuffered [server.broadcast] that only its own [select] receives
    from.  From then on [run] receives no event, the live set stays as it
    is, and no line reaches any client beyond those already on their way. *)
Theorem Register_blocks_run `{R : MapRange} (st : ChatServer) (client : Client) :
  pending st = [] →
  ∃ st',
    run (Register client) st = Next st' ∧
    clients st' = <[client := true]> (clients st) ∧
    heap st' = heap st ∧
    pending st' = [joinMsg client; userList (name <$> range (clients st'))] ∧
    (∀ ev, run ev st' = NoStep) ∧
    (∀ tr st'', exec tr st' = Next st'' →
       Forall is_pump tr ∧ clients st'' = clients st' ∧
       pending st'' = pending st' ∧ ∀ c, observed st'' c = observed st' c).
Proof.
  intros Hp. eexists. unfold run. rewrite Hp.
  split; [reflexivity|]. simpl.
  destruct (sendUserList_spec (<[client:=true]> (clients st))) as [[He _]|[_ ->]].
  { by apply insert_non_empty in He. }
  split; [done|]. split; [done|]. split; [done|]. split.
  - done.
  - intros tr st'' H. by eapply exec_pending in H.
Qed.

Lemma Register_blocks_run_witness :
  pending NewChatServer = [] ∧
  ∃ st',
    run (Register al) NewChatServer = Next st' ∧
    clients st' = <[al := true]> (clients NewChatServer) ∧
    heap st' = heap NewChatServer ∧
    pending st' = [joinMsg al; userList (name <$> range (clients st'))] ∧
    (∀ ev, run ev st' = NoStep) ∧
    (∀ tr st'', exec tr st' = Next st'' →
       Forall is_pump tr ∧ clients st'' = clients st' ∧
       pending st'' = pending st' ∧ ∀ c, observed st'' c = observed st' c).
Proof.
  split; [reflexivity|]. apply (Register_blocks_run NewChatServer al). reflexivity.
Defined.

(** The fresh server on [Register(al)]: [run] is left in the send of the
    join announcement, and a chat line sent next is never received. *)
Example Register_al :
  run (Register al) NewChatServer =
    Next (mkServer {[al := true]}
            ["*** al has joined the chat ***"; "*** Online users: al ***"] ∅) ∧
  exec [Recv (Register al); Recv (Broadcast "[14:05:09] al: hello")]
       NewChatServer = NoStep.
Proof. split; vm_compute; reflexivity. Qed.

(** ** Deregistration *)

(** C1, as the claim has it, fails: with [bob] alone in the room, the
    deregistration of [al], who is not a member, does not leave the server
    as it was: [run] has a leave announcement for [al] and a roster to
    send. *)
Lemma Unregister_non_member_not_noop :
  clients room_bob !! al = None ∧
  run (Unregister al) room_bob =
    Next (mkServer {[bob := true]}
            ["*** al has left the chat ***"; "*** Online users: bob ***"] ∅) ∧
  run (Unregister al) room_bob ≠ Next room_bob.
Proof. split; [|split]; [vm_compute; reflexivity ..|]. vm_compute. discriminate. Qed.

(** The two cases of a deregistration: the member's, with the teardown,
    and the non-member's, without; the same two announcements follow. *)
Lemma Unregister_member `{R : MapRange} (st : ChatServer) (client : Client) :
  pending st = [] → is_Some (clients st !! client) →
  closed (messages (peer st client)) = false →
  run (Unregister client) st =
    Next (mkServer (delete client (clients st))
            (leaveMsg client :: sendUserList (delete client (clients st)))
            (heap (teardown client st))).
Proof. intros Hp [b Hc] Ho. unfold run. by rewrite Hp, Hc, Ho. Qed.

Lemma Unregister_stranger `{R : MapRange} (st : ChatServer) (client : Client) :
  pending st = [] → clients st !! client = None →
  run (Unregister client) st =
    Next (mkServer (clients st)
            (leaveMsg client :: sendUserList (clients st)) (heap st)).
Proof. intros Hp Hc. unfold run. by rewrite Hp, Hc. Qed.

(** C1, amended: deregistration tears a client down once.  On a ready
    server it never panics; for a non-member it leaves the live set, the
    channels and the connections as they are; and a second
    deregistration of the same client, received with [run] at its
    [select] again, leaves the live set, channels and connections as the
    first one left them.  But either way, member or not, first time or
    second, [run] goes on to the leave announcement and the roster. *)
Theorem Unregister_tears_down_once `{R : MapRange} (st : ChatServer) (client : Client) :
  ready st →
  ∃ st1,
    run (Unregister client) st = Next st1 ∧
    pending st1 = leaveMsg client :: sendUserList (clients st1) ∧
    (clients st !! client = None →
       clients st1 = clients st ∧ heap st1 = heap st) ∧
    run (Unregister client) (mkServer (clients st1) [] (heap st1)) = Next st1.
Proof.
  intros [Hp Hopen]. destruct (clients st !! client) as [b|] eqn:Hc.
  - eexists. split.
    { apply Unregister_member; [done|by exists b|by apply (Hopen client b)]. }
    split; [done|]. split; [done|]. cbn [clients heap pending].
    rewrite Unregister_stranger; [done|done|].
    cbn [clients]. apply lookup_delete_eq.
  - eexists. split; [by apply Unregister_stranger|].
    split; [done|]. split; [done|]. cbn [clients heap pending].
    by rewrite Unregister_stranger.
Qed.

Lemma Unregister_tears_down_once_witness :
  ready room_bob ∧ clients room_bob !! al = None ∧
  ∃ st1,
    run (Unregister al) room_bob = Next st1 ∧
    pending st1 = leaveMsg al :: sendUserList (clients st1) ∧
    clients st1 = clients room_bob ∧ heap st1 = heap room_bob.
Proof.
  assert (ready room_bob) as Hr by ready_by_compute.
  assert (clients room_bob !! al = None) as Hal by (vm_compute; reflexivity).
  split; [exact Hr|]. split; [exact Hal|].
  destruct (Unregister_tears_down_once room_bob al Hr) as (st1 & H1 & H2 & H3 & _).
  destruct (H3 Hal) as [H4 H5].
  exists st1. auto.
Defined.

(** ** The fan-out of a broadcast *)

Lemma deliver_open message st client :
  closed (messages (peer st client)) = false →
  deliver message st client =
    Some (if decide (full (peer st client)) then teardown client st
          else set_peer client (sent message (peer st client)) st).
Proof.
  intros Ho. unfold deliver. rewrite Ho. unfold full.
  destruct (Nat.ltb_spec (length (buf (messages (peer st client)))) capacity);
    [rewrite decide_False by lia | rewrite decide_True by lia]; done.
Qed.

Lemma deliver_closed message st client :
  closed (messages (peer st client)) = true → deliver message st client = None.
Proof. intros Hc. unfold deliver. by rewrite Hc. Qed.

(** The loop visits every client of its order once, and a visit touches
    that client alone. *)
Lemma fan_out_spec message order : ∀ st,
  NoDup order →
  (∀ c, c ∈ order → closed (messages (peer st c)) = false) →
  ∃ st', fan_out message order st = Some st' ∧
    pending st' = pending st ∧
    (∀ c, clients st' !! c =
          if decide (c ∈ order ∧ full (peer st c)) then None
          else clients st !! c) ∧
    (∀ c, heap st' !! c =
          if decide (c ∈ order) then Some (after message (peer st c))
          else heap st !! c).
Proof.
  induction order as [|c0 order IH]; intros st Hnd Hopen; cbn [fan_out].
  { exists st. split; [done|]. split; [done|]. split; intros c.
    - rewrite decide_False; [done|]. intros [[]%elem_of_nil _].
    - rewrite decide_False; [done|]. apply not_elem_of_nil. }
  apply NoDup_cons in Hnd as [Hc0 Hnd].
  rewrite deliver_open by (apply Hopen; left).
  set (st1 := if decide (full (peer st c0)) then teardown c0 st
              else set_peer c0 (sent message (peer st c0)) st).
  assert (∀ c, c ≠ c0 → peer st1 c = peer st c) as Hpeer.
  { intros c Hc. unfold st1. destruct (decide (full (peer st c0))).
    - rewrite peer_teardown. by rewrite decide_False.
    - rewrite peer_set_peer. by rewrite decide_False. }
  assert (pending st1 = pending st) as Hpend.
  { unfold st1. by destruct (decide (full (peer st c0))). }
  destruct (IH st1 Hnd) as (st' & Hf & Hp & Hcs & Hh).
  { intros c Hc. rewrite Hpeer; [apply Hopen; by right|]. by intros ->. }
  exists st'. split; [done|]. split; [congruence|]. split; intros c.
  - rewrite Hcs. destruct (decide (c = c0)) as [->|Hne].
    + rewrite (decide_False (P := c0 ∈ order ∧ _)) by tauto.
      unfold st1. destruct (decide (full (peer st c0))) as [Hfull|Hfull]; simpl.
      * rewrite lookup_delete_eq. rewrite decide_True; [done|]. split; [left|done].
      * rewrite decide_False; [done|]. tauto.
    + rewrite Hpeer by done.
      assert (clients st1 !! c = clients st !! c) as ->.
      { unfold st1. destruct (decide (full (peer st c0))); simpl; [|done].
        by rewrite lookup_delete_ne. }
      destruct (decide (c ∈ order ∧ full (peer st c))) as [[]|Hn].
      * rewrite decide_True; [done|]. split; [by right|done].
      * rewrite decide_False; [done|].
        intros [[->|]%elem_of_cons ?]; tauto.
  - rewrite Hh. destruct (decide (c = c0)) as [->|Hne].
    + rewrite (decide_False (P := c0 ∈ order)) by done.
      rewrite decide_True by left.
      unfold st1, after. destruct (decide (full (peer st c0))); simpl;
        by rewrite lookup_insert_eq.
    + rewrite Hpeer by done.
      assert (heap st1 !! c = heap st !! c) as ->.
      { unfold st1. destruct (decide (full (peer st c0))); simpl;
          by rewrite lookup_insert_ne. }
      destruct (decide (c ∈ order)).
      * rewrite decide_True; [done|]. by right.
      * rewrite decide_False; [done|]. intros [->|]%elem_of_cons; tauto.
Qed.

Section Fanout.
Context {R : MapRange}.

(** The [broadcast] case on a ready server, member by member. *)
Lemma run_Broadcast_spec message st :
  ready st →
  ∃ st', run (Broadcast message) st = Next st' ∧
    pending st' = [] ∧
    (∀ c, clients st' !! c =
          if decide (full (peer st c)) then None else clients st !! c) ∧
    (∀ c, heap st' !! c =
          if decide (is_Some (clients st !! c))
          then Some (after message (peer st c)) else heap st !! c).
Proof.
  intros [Hp Hopen].
  destruct (fan_out_spec message (range (clients st)) st) as (st' & Hf & Hq & Hcs & Hh).
  { apply NoDup_range. }
  { intros c [b Hb]%elem_of_range. by apply (Hopen c b). }
  exists st'. unfold run. rewrite Hp, Hf. split; [done|]. split; [congruence|].
  split; intros c.
  - rewrite Hcs. destruct (decide (full (peer st c))) as [Hfull|Hfull].
    + destruct (decide (c ∈ range (clients st) ∧ full (peer st c))) as [|Hn]; [done|].
      destruct (clients st !! c) eqn:Hc; [|done].
      exfalso. apply Hn. split; [|done]. apply elem_of_range. by rewrite Hc.
    + rewrite decide_False; [done|]. tauto.
  - rewrite Hh. destruct (decide (is_Some (clients st !! c))) as [Hs|Hs].
    + rewrite decide_True; [done|]. by apply elem_of_range.
    + rewrite decide_False; [done|]. by rewrite elem_of_range.
Qed.
End Fanout.

Lemma peer_heap (st' : ChatServer) c p :
  heap st' !! c = Some p → peer st' c = p.
Proof. unfold peer. by intros ->. Qed.

Lemma peer_heap_eq st st' c :
  heap st' !! c = heap st !! c → peer st' c = peer st c.
Proof. unfold peer. by intros ->. Qed.

Lemma observed_sent message st st' c :
  peer st' c = sent message (peer st c) →
  observed st' c = observed st c ++ [line message].
Proof.
  unfold observed. intros ->. simpl. by rewrite fmap_app, app_assoc.
Qed.

Lemma observed_torn st st' c :
  peer st' c = torn (peer st c) → observed st' c = observed st c.
Proof. unfold observed. by intros ->. Qed.

Section Relay.
Context {R : MapRange}.

Lemma ready_Broadcast message st st' :
  ready st → run (Broadcast message) st = Next st' → ready st'.
Proof.
  intros Hr H. destruct (run_Broadcast_spec message st Hr) as (st1 & H1 & Hp & Hcs & Hh).
  rewrite H1 in H. injection H as <-. split; [done|].
  intros c b Hc. rewrite Hcs in Hc.
  destruct (decide (full (peer st c))) as [|Hnf]; [done|].
  rewrite (peer_heap st1 c (after message (peer st c))).
  - unfold after. by rewrite decide_False.
  - rewrite Hh. rewrite decide_True; [done|]. by exists b.
Qed.

Lemma ready_writePump client net_ok st st' :
  ready st → writePump client net_ok st = Next st' → ready st'.
Proof.
  intros [Hp Hopen] (Hc & Hq & Hothers & _ & Hcl)%writePump_spec.
  split; [congruence|]. intros c b Hb. rewrite Hc in Hb.
  destruct (decide (c = client)) as [->|Hne].
  - rewrite Hcl. by apply (Hopen client b).
  - rewrite Hothers by done. by apply (Hopen c b).
Qed.

(** Over broadcasts and rounds of writers, whoever is a member at the
    end was one all along and was sent every broadcast, in order. *)
Lemma exec_relays tr : ∀ st st',
  ready st → Forall relays tr → exec tr st = Next st' →
  ready st' ∧
  ∀ c, is_Some (clients st' !! c) →
       is_Some (clients st !! c) ∧
       observed st' c = observed st c ++ (line <$> processed tr).
Proof.
  induction tr as [|a tr IH]; intros st st' Hr Htr H; simpl in H.
  { injection H as <-. split; [done|]. intros c Hc. split; [done|].
    simpl. by rewrite app_nil_r. }
  apply Forall_cons in Htr as [Ha Htr].
  destruct a as [[client|client|message]|client net_ok]; simpl in Ha; try done.
  - simpl in H. destruct (run (Broadcast message) st) as [st1| |] eqn:H1; try done.
    pose proof (ready_Broadcast _ _ _ Hr H1) as Hr1.
    destruct (IH st1 st' Hr1 Htr H) as [Hr' Hrest]. split; [done|].
    intros c Hc. destruct (Hrest c Hc) as [Hc1 Hobs].
    destruct (run_Broadcast_spec message st Hr) as (st1' & H1' & _ & Hcs & Hh).
    rewrite H1 in H1'. injection H1' as <-.
    rewrite Hcs in Hc1.
    destruct (decide (full (peer st c))) as [|Hnf]; [by destruct Hc1|].
    split; [done|]. rewrite Hobs. simpl.
    rewrite (observed_sent message st st1 c).
    + by rewrite <- app_assoc.
    + apply peer_heap. rewrite Hh, decide_True by done.
      unfold after. by rewrite decide_False.
  - simpl in H. destruct (writePump client net_ok st) as [st1| |] eqn:H1; try done.
    pose proof (ready_writePump _ _ _ _ Hr H1) as Hr1.
    destruct (IH st1 st' Hr1 Htr H) as [Hr' Hrest]. split; [done|].
    intros c Hc. destruct (Hrest c Hc) as [Hc1 Hobs].
    apply writePump_spec in H1 as (Hcl & _ & Hothers & Hsame & _).
    split; [congruence|]. rewrite Hobs. simpl. f_equal.
    destruct (decide (c = client)) as [->|Hne]; [done|].
    by apply observed_peer, Hothers.
Qed.
End Relay.

(** C2: on [Broadcast(t)] a ready server tries every member without
    waiting.  A member whose channel holds fewer than 256 texts stays a
    member and gets [t] at the back of its channel, nothing else of it
    changing; a member whose channel is full is taken out of the live set,
    its channel closed and its connection closed; non-members are left
    alone.  So every remaining member holds [t] last in its channel, no
    channel grows beyond 256 texts, the
    server is ready again, and over any further broadcasts (and rounds of
    writers) whoever remains a member is sent every one of them, in
    order. *)
Theorem Broadcast_fan_out `{R : MapRange} (st : ChatServer) (t : string) :
  ready st →
  ∃ st', run (Broadcast t) st = Next st' ∧
    (∀ c, is_Some (clients st !! c) → length (buf (messages (peer st c))) < 256 →
       is_Some (clients st' !! c) ∧ peer st' c = sent t (peer st c)) ∧
    (∀ c, is_Some (clients st !! c) → 256 ≤ length (buf (messages (peer st c))) →
       clients st' !! c = None ∧ peer st' c = torn (peer st c)) ∧
    (∀ c, clients st !! c = None →
       clients st' !! c = None ∧ peer st' c = peer st c) ∧
    (∀ c, is_Some (clients st' !! c) →
       ∃ q, buf (messages (peer st' c)) = q ++ [t]) ∧
    (∀ c, length (buf (messages (peer st c))) ≤ 256 →
       length (buf (messages (peer st' c))) ≤ 256) ∧
    ready st' ∧
    (∀ tr st'', Forall relays tr → exec tr st' = Next st'' →
       ∀ c, is_Some (clients st'' !! c) →
         is_Some (clients st' !! c) ∧
         observed st'' c = observed st' c ++ (line <$> processed tr)).
Proof.
  intros Hr. destruct (run_Broadcast_spec t st Hr) as (st' & H & Hp & Hcs & Hh).
  exists st'. split; [done|].
  assert (∀ c, is_Some (clients st !! c) → peer st' c = after t (peer st c)) as Hafter.
  { intros c Hc. apply peer_heap. by rewrite Hh, decide_True. }
  split; [|split; [|split; [|split; [|split; [|split]]]]].
  - intros c Hc Hlen. rewrite Hcs, Hafter by done. unfold after.
    rewrite !decide_False; [done|unfold full, capacity; lia..].
  - intros c Hc Hlen. rewrite Hcs, Hafter by done. unfold after.
    rewrite !decide_True; [done|unfold full, capacity; lia..].
  - intros c Hc. rewrite Hcs, Hc. split; [by destruct (decide _)|].
    apply peer_heap_eq. rewrite Hh, decide_False; [done|]. rewrite Hc. by intros [].
  - intros c Hc. rewrite Hcs in Hc.
    destruct (decide (full (peer st c))) as [|Hnf]; [by destruct Hc|].
    rewrite Hafter by done. unfold after. rewrite decide_False by done. by eexists.
  - intros c Hlen. destruct (decide (is_Some (clients st !! c))) as [Hc|Hc].
    + rewrite Hafter by done. unfold after, full, capacity.
      destruct (decide (256 ≤ length (buf (messages (peer st c))))); simpl; [done|].
      rewrite length_app. simpl. lia.
    + rewrite (peer_heap_eq st st' c); [done|]. by rewrite Hh, decide_False.
  - by apply (ready_Broadcast t st).
  - intros tr st'' Htr He. apply (exec_relays tr st' st''); [|done..].
    by apply (ready_Broadcast t st).
Qed.

Lemma Broadcast_fan_out_witness :
  ready room_bob_stalled ∧
  ∃ st', run (Broadcast "hi") room_bob_stalled = Next st' ∧
         peer st' al = sent "hi" (peer room_bob_stalled al) ∧
         clients st' !! bob = None ∧ peer st' bob = torn (peer room_bob_stalled bob).
Proof.
  assert (ready room_bob_stalled) as Hr by ready_by_compute.
  split; [exact Hr|].
  destruct (Broadcast_fan_out room_bob_stalled "hi" Hr)
    as (st' & H & Hroom & Hfull & _).
  exists st'. split; [exact H|].
  destruct (Hroom al) as [_ Hal]; [vm_compute; eauto | vm_compute; lia |].
  destruct (Hfull bob) as [Hb1 Hb2]; [vm_compute; eauto | vm_compute; lia |].
  auto.
Defined.

(** The same broadcast, computed: [al] gets the text, [bob] is dropped
    and nothing is left for [run] to send. *)
Example Broadcast_to_stalled :
  run (Broadcast "hi") room_bob_stalled =
    Next (mkServer {[al := true]} []
            {[al := mkPeer (mkChan ["hi"] false) [] [] false;
              bob := mkPeer (mkChan (replicate 256 "x") true) [ByRun] [] false]}).
Proof. vm_compute. reflexivity. Qed.

(** ** A dropped client is announced when it is deregistered *)






(** The drop, what follows it and the deregistration, computed: [al] is
    left with both texts, and [run] with the leave announcement of [bob]
    and the roster to send. *)
Example drop_then_Unregister :
  exec (Recv (Broadcast "hi") :: after_the_drop ++ [Recv (Unregister bob)])
       room_bob_stalled =
    Next (mkServer {[al := true]}
            ["*** bob has left the chat ***"; "*** Online users: al ***"]
            {[al := mkPeer (mkChan ["again"] false) [] [line "hi"] false;
              bob := mkPeer (mkChan (replicate 256 "x") true) [ByRun] [] false]}).
Proof. vm_compute. reflexivity. Qed.

(** ** What one step does to one client *)

Lemma deliver_others message st st1 c0 :
  deliver message st c0 = Some st1 →
  closed (messages (peer st c0)) = false ∧
  ∀ c, c ≠ c0 → peer st1 c = peer st c.
Proof.
  intros H. destruct (closed (messages (peer st c0))) eqn:Ho.
  { by rewrite deliver_closed in H. }
  split; [done|]. rewrite deliver_open in H by done. injection H as <-.
  intros c Hc. destruct (decide (full (peer st c0))).
  - rewrite peer_teardown. by rewrite decide_False.
  - rewrite peer_set_peer. by rewrite decide_False.
Qed.

(** A fan-out that does not panic found every channel it tried open. *)
Lemma fan_out_Some_open message order : ∀ st st',
  NoDup order → fan_out message order st = Some st' →
  ∀ c, c ∈ order → closed (messages (peer st c)) = false.
Proof.
  induction order as [|c0 order IH]; intros st st' Hnd H c Hc.
  { by apply elem_of_nil in Hc. }
  apply NoDup_cons in Hnd as [Hc0 Hnd]. cbn [fan_out] in H.
  destruct (deliver message st c0) as [st1|] eqn:Hd; [|done].
  apply deliver_others in Hd as [Ho Hothers].
  apply elem_of_cons in Hc as [->|Hc]; [done|].
  rewrite <- Hothers by (by intros ->). by eapply IH.
Qed.

Lemma writePump_touched client net_ok st st' :
  writePump client net_ok st = Next st' →
  touched client (Pump client net_ok) st st'.
Proof.
  intros H. pose proof H as (Hc & _ & _ & Hobs & _)%writePump_spec.
  apply (touched_pump _ _ _ _ net_ok); [done|by rewrite Hc|done|..];
    unfold writePump in H;
    destruct (writer_done (peer st client)) eqn:Hd; try done.
  destruct (buf (messages (peer st client))) as [|message rest].
  - destruct (closed (messages (peer st client))); [|done].
    injection H as <-. right. by rewrite peer_set_peer, decide_True.
  - destruct (net_ok && bool_decide (closes (peer st client) = []));
      injection H as <-; [left|right]; by rewrite peer_set_peer, decide_True.
Qed.

Section Steps.
Context {R : MapRange}.

Lemma step_touched a st st' c : step a st = Next st' → touched c a st st'.
Proof.
  destruct a as [[client|client|message]|client net_ok]; simpl; unfold run.
  - destruct (pending st); [|done]. intros [= <-]. simpl.
    destruct (decide (c = client)) as [->|Hne].
    + apply touched_register; [done..|]. simpl. by rewrite lookup_insert_eq.
    + apply touched_not; [done|]. simpl. by rewrite lookup_insert_ne.
  - destruct (pending st); [|done].
    destruct (clients st !! client) as [b|] eqn:Hb.
    + destruct (closed (messages (peer st client))); [done|]. intros [= <-].
      destruct (decide (c = client)) as [->|Hne].
      * apply touched_torn; [by intros []|by exists b|..].
        -- unfold peer at 1. simpl. by rewrite lookup_insert_eq.
        -- simpl. by rewrite lookup_delete_eq.
      * apply touched_not.
        -- unfold peer at 1. simpl. by rewrite lookup_insert_ne.
        -- simpl. by rewrite lookup_delete_ne.
    + intros [= <-]. by apply touched_not.
  - destruct (pending st); [|done].
    destruct (fan_out message (range (clients st)) st) as [st1|] eqn:Hf; [|done].
    intros [= <-].
    pose proof (fan_out_Some_open _ _ _ _ (NoDup_range _) Hf) as Hopen.
    destruct (fan_out_spec message _ st (NoDup_range _) Hopen)
      as (st1' & Hf' & _ & Hcs & Hh).
    rewrite Hf in Hf'. injection Hf' as <-.
    destruct (decide (c ∈ range (clients st))) as [Hin|Hout].
    + assert (peer st1 c = after message (peer st c)) as Hp.
      { apply peer_heap. by rewrite Hh, decide_True. }
      pose proof Hin as Hm%elem_of_range.
      unfold after in Hp. destruct (decide (full (peer st c))) as [Hfull|Hroom].
      * apply touched_torn; [by intros []|done..|].
        rewrite Hcs. by rewrite decide_True.
      * apply (touched_sent _ _ _ _ message); [done..|].
        rewrite Hcs. rewrite decide_False; [done|]. tauto.
    + apply touched_not.
      * apply peer_heap_eq. by rewrite Hh, decide_False.
      * rewrite Hcs. rewrite decide_False; [done|]. tauto.
  - intros H. destruct (decide (c = client)) as [->|Hne].
    + by apply writePump_touched.
    + apply writePump_spec in H as (Hc & _ & Hothers & _).
      apply touched_not; [by apply Hothers|by rewrite Hc].
Qed.
End Steps.

(** Every step keeps the channels of the members open, when it registers
    no client whose channel is closed: the servers that come from
    [NewChatServer] by registering clients as [handleClient] makes them
    have their members' channels open. *)
Lemma step_members_open `{R : MapRange} a st st' :
  members_open st →
  (∀ c, a = Recv (Register c) → closed (messages (peer st c)) = false) →
  step a st = Next st' → members_open st'.
Proof.
  intros Hopen Hreg Hs c b Hb.
  destruct (step_touched a st st' c Hs)
    as [Hp Hc | Ha Hp _ | message _ _ Hp _ | _ _ _ Hc | net_ok -> Hc _ _ _].
  - rewrite Hp. rewrite Hc in Hb. by apply (Hopen c b).
  - rewrite Hp. by apply Hreg.
  - by rewrite Hp.
  - congruence.
  - simpl in Hs. apply writePump_spec in Hs as (_ & _ & _ & _ & ->).
    rewrite Hc in Hb. by apply (Hopen c b).
Qed.

Lemma NewChatServer_ready : ready NewChatServer.
Proof. ready_by_compute. Qed.

(** ** The order of delivery *)

Section Order.
Context {R : MapRange}.

(** Over any schedule, what is added to the lines of a client is a
    subsequence of the broadcasts [run] received. *)
Lemma exec_observed tr : ∀ st st' c,
  exec tr st = Next st' →
  ∃ d, observed st' c = observed st c ++ (line <$> d) ∧
       d `sublist_of` processed tr.
Proof.
  induction tr as [|a tr IH]; intros st st' c H; simpl in H.
  { injection H as <-. exists []. simpl. by rewrite app_nil_r. }
  destruct (step a st) as [st1| |] eqn:Hs; try done.
  destruct (IH st1 st' c H) as (d & Hobs & Hsub).
  destruct (step_touched a st st1 c Hs)
    as [Hp _ | -> Hp _ | message -> _ Hp _ | Ha _ Hp _ | net_ok -> _ Ho _ _].
  - exists d. split; [by rewrite Hobs, (observed_peer st st1)|].
    destruct a as [[]|]; simpl; [done|done|by apply sublist_cons|done].
  - exists d. split; [by rewrite Hobs, (observed_peer st st1)|done].
  - exists (message :: d). split.
    + rewrite Hobs, (observed_sent message st st1) by done.
      by rewrite <- app_assoc.
    + simpl. by apply sublist_skip.
  - exists d. split.
    + by rewrite Hobs, (observed_torn st st1).
    + destruct a as [[]|]; simpl; [done|done|by apply sublist_cons|done].
  - exists d. split; [by rewrite Hobs, Ho|done].
Qed.
End Order.

(** C5: over every schedule of events [run] receives (and of rounds of
    writers), the lines added for two clients that are members at the end
    are both subsequences of one sequence, the broadcast texts in the
    order [run] received them: no client is sent two texts in another
    order than that. *)
Theorem Broadcast_order `{R : MapRange}
    (tr : list Action) (st st' : ChatServer) (c1 c2 : Client) :
  exec tr st = Next st' →
  is_Some (clients st' !! c1) → is_Some (clients st' !! c2) →
  ∃ d1 d2,
    observed st' c1 = observed st c1 ++ (line <$> d1) ∧
    observed st' c2 = observed st c2 ++ (line <$> d2) ∧
    d1 `sublist_of` processed tr ∧ d2 `sublist_of` processed tr.
Proof.
  intros H _ _.
  destruct (exec_observed tr st st' c1 H) as (d1 & H1 & S1).
  destruct (exec_observed tr st st' c2 H) as (d2 & H2 & S2).
  by exists d1, d2.
Qed.

Lemma Broadcast_order_witness :
  exec two_broadcasts room_al_bob = Next (final (exec two_broadcasts room_al_bob)) ∧
  ∃ d1 d2,
    observed (final (exec two_broadcasts room_al_bob)) al =
      observed room_al_bob al ++ (line <$> d1) ∧
    observed (final (exec two_broadcasts room_al_bob)) bob =
      observed room_al_bob bob ++ (line <$> d2) ∧
    d1 `sublist_of` processed two_broadcasts ∧
    d2 `sublist_of` processed two_broadcasts.
Proof.
  assert (exec two_broadcasts room_al_bob =
          Next (final (exec two_broadcasts room_al_bob))) as He
    by (vm_compute; reflexivity).
  split; [exact He|].
  apply (Broadcast_order two_broadcasts room_al_bob _ al bob He);
    vm_compute; eauto.
Defined.

(** Both clients of that schedule are sent both texts, in the order of
    the broadcasts. *)
Example two_broadcasts_observed :
  observed (final (exec two_broadcasts room_al_bob)) al = [line "one"; line "two"] ∧
  observed (final (exec two_broadcasts room_al_bob)) bob = [line "one"; line "two"].
Proof. split; vm_compute; reflexivity. Qed.

(** ** Who closes a connection, and how often *)




Section Closing.
Context {R : MapRange}.


End Closing.




(** ** The handshake *)

(** The four ways a handshake can go. *)
Lemma handleClient_cases st conn reply :
  (reply = None ∧
   handleClient st conn reply = [ConnWrite "Enter your username: "; ConnClose]) ∨
  (∃ line, reply = Some line ∧
     (len (TrimSpace line) < 2 ∨ 32 < len (TrimSpace line)) ∧
     handleClient st conn reply =
       [ConnWrite "Enter your username: ";
        ConnWrite ("Username must be 2-32 characters." +:+ nl); ConnClose]) ∨
  (∃ line, reply = Some line ∧ 2 ≤ len (TrimSpace line) ≤ 32 ∧
     MAX_CLIENTS ≤ size (clients st) ∧
     handleClient st conn reply =
       [ConnWrite "Enter your username: ";
        ConnWrite ("Server is full. Try again later." +:+ nl); ConnClose]) ∨
  (∃ line, reply = Some line ∧ 2 ≤ len (TrimSpace line) ≤ 32 ∧
     size (clients st) < MAX_CLIENTS ∧
     handleClient st conn reply =
       [ConnWrite "Enter your username: ";
        SendRegister (mkClient conn (TrimSpace line));
        SendWelcome (mkClient conn (TrimSpace line)) (welcomeMsg (TrimSpace line));
        GoWritePump (mkClient conn (TrimSpace line));
        GoReadPump (mkClient conn (TrimSpace line)); Park]).
Proof.
  unfold handleClient. destruct reply as [line|]; [|by left].
  right. cbv zeta.
  destruct (Nat.ltb_spec (len (TrimSpace line)) 2) as [Hlo|Hlo]; cbn [orb].
  { left. exists line. auto. }
  destruct (Nat.ltb_spec 32 (len (TrimSpace line))) as [Hhi|Hhi].
  { left. exists line. auto. }
  right. destruct (Nat.leb_spec MAX_CLIENTS (size (clients st))) as [Hfull|Hroom].
  - left. exists line. auto.
  - right. exists line. auto.
Qed.

(** C6: a handshake made while the live set holds [MAX_CLIENTS] = 50
    members or more registers nobody and ends with the connection closed;
    when the name it read is acceptable, all it writes after the prompt
    is the server-full line.  And when a handshake does send a
    registration and [run] handles it on the server the handshake saw, the
    live set holds at most [MAX_CLIENTS] members afterwards. *)
Theorem capacity_enforced `{R : MapRange}
    (st : ChatServer) (conn : nat) (reply : option string) :
  MAX_CLIENTS = 50 ∧
  (MAX_CLIENTS ≤ size (clients st) →
     (∀ client, SendRegister client ∉ handleClient st conn reply) ∧
     last (handleClient st conn reply) = Some ConnClose ∧
     (∀ line, reply = Some line →
        2 ≤ len (TrimSpace line) ≤ 32 →
        handleClient st conn reply =
          [ConnWrite "Enter your username: ";
           ConnWrite ("Server is full. Try again later." +:+ nl);
           ConnClose])) ∧
  (∀ client st',
     SendRegister client ∈ handleClient st conn reply →
     run (Register client) st = Next st' →
     size (clients st') ≤ MAX_CLIENTS).
Proof.
  split; [done|].
  destruct (handleClient_cases st conn reply)
    as [[-> ->]|[(line & -> & Hlen & ->)|[(line & -> & Hlen & Hfull & ->)
       |(line & -> & Hlen & Hroom & ->)]]].
  - split.
    + intros _. split; [no_register|]. split; [done|]. by intros ? [=].
    + intros client st' Hin. exfalso. revert client Hin. no_register.
  - split.
    + intros _. split; [no_register|]. split; [done|]. intros ? [= <-] ?. lia.
    + intros client st' Hin. exfalso. revert client Hin. no_register.
  - split.
    + intros _. split; [no_register|]. split; [done|]. by intros ? [= <-] ?.
    + intros client st' Hin. exfalso. revert client Hin. no_register.
  - split; [lia|]. intros client st' _. unfold run.
    destruct (pending st); [|done]. intros [= <-]. simpl.
    rewrite map_size_insert. destruct (clients st !! client); simpl; lia.
Qed.

Lemma capacity_enforced_witness :
  MAX_CLIENTS ≤ size (clients room_full) ∧
  handleClient room_full 77 (Some ("al" +:+ nl)) =
    [ConnWrite "Enter your username: ";
     ConnWrite ("Server is full. Try again later." +:+ nl);
     ConnClose].
Proof.
  assert (MAX_CLIENTS ≤ size (clients room_full)) as Hfull by (vm_compute; lia).
  split; [exact Hfull|].
  destruct (capacity_enforced room_full 77 (Some ("al" +:+ nl)))
    as (_ & Hrej & _).
  destruct (Hrej Hfull) as (_ & _ & Hmsg).
  apply (Hmsg ("al" +:+ nl)); [reflexivity|vm_compute; lia].
Defined.

(** Scenario C, and a registration with room: 49 members become 50. *)
Example server_full :
  handleClient room_full 77 (Some ("al" +:+ nl)) =
    [ConnWrite "Enter your username: ";
     ConnWrite ("Server is full. Try again later." +:+ nl);
     ConnClose] ∧
  SendRegister (mkClient 77 "al") ∈
    handleClient (without (mkClient 0 "guest") room_full) 77 (Some ("al" +:+ nl)) ∧
  size (clients (final (run (Register (mkClient 77 "al"))
                          (without (mkClient 0 "guest") room_full)))) = 50.
Proof.
  split; [vm_compute; reflexivity|]. split; [|vm_compute; reflexivity].
  vm_compute. apply list_elem_of_In. simpl. tauto.
Qed.

(** ** Trimming *)

Lemma strip_Some w : ∀ s s', strip w s = Some s' ↔ s = w ++ s'.
Proof.
  induction w as [|a w IH]; intros s s'; simpl.
  { split; [by intros [= ->]|by intros ->]. }
  destruct s as [|b s]; [by split|].
  destruct (N.eqb_spec a b) as [->|Hne].
  - rewrite IH. split; [by intros ->|by intros [= ->]].
  - split; [done|]. intros [= ? _]. done.
Qed.

Lemma drop_one_Some ws : ∀ s s',
  drop_one ws s = Some s' → ∃ w, w ∈ ws ∧ s = w ++ s'.
Proof.
  induction ws as [|w ws IH]; intros s s'; simpl; [done|].
  destruct (strip w s) as [x|] eqn:Hw.
  - intros [= ->]. apply strip_Some in Hw. exists w. split; [left|done].
  - intros (w' & Hin & Hs)%IH. exists w'. split; [by right|done].
Qed.

Lemma drop_one_prefix ws : ∀ w s,
  w ∈ ws → is_Some (drop_one ws (w ++ s)).
Proof.
  induction ws as [|w0 ws IH]; intros w s Hin; simpl.
  { by apply elem_of_nil in Hin. }
  destruct (strip w0 (w ++ s)) as [x|] eqn:Hw; [by eexists|].
  apply elem_of_cons in Hin as [->|Hin]; [|by apply IH].
  assert (strip w0 (w0 ++ s) = Some s) as Hs by (by apply strip_Some).
  congruence.
Qed.

Lemma drop_one_nil ws : Forall (λ w, w ≠ []) ws → drop_one ws [] = None.
Proof.
  induction 1 as [|w ws Hw _ IH]; simpl; [done|]. by destruct w.
Qed.

(** The loop takes a run of the sequences off the front and stops where
    none of them starts. *)
Lemma trim_loop_spec ws : Forall (λ w, w ≠ []) ws →
  ∀ fuel s, length s ≤ fuel →
  ∃ l, s = l ++ trim_loop ws fuel s ∧ chain ws l ∧
       drop_one ws (trim_loop ws fuel s) = None.
Proof.
  intros Hne. induction fuel as [|fuel IH]; intros s Hlen; simpl.
  { destruct s; [|simpl in Hlen; lia]. exists []. split; [done|].
    split; [constructor|by apply drop_one_nil]. }
  destruct (drop_one ws s) as [s'|] eqn:Hd.
  - destruct (drop_one_Some _ _ _ Hd) as (w & Hin & ->).
    assert (w ≠ []) as Hw by (by eapply Forall_forall in Hne).
    destruct (IH s') as (l & Hl & Hch & Hnone).
    { rewrite length_app in Hlen. destruct w; [done|]. simpl in Hlen. lia. }
    exists (w ++ l). split; [by rewrite <- app_assoc, <- Hl|].
    split; [by constructor|done].
  - exists []. split; [done|]. split; [constructor|done].
Qed.

Lemma chain_app ws a b : chain ws a → chain ws b → chain ws (a ++ b).
Proof.
  induction 1 as [|w s Hw _ IH]; intros Hb; [done|].
  rewrite <- app_assoc. constructor; auto.
Qed.

Lemma chain_reverse ws s : chain (reverse <$> ws) s → chain ws (reverse s).
Proof.
  induction 1 as [|w s Hw _ IH]; [constructor|].
  apply list_elem_of_fmap in Hw as (w0 & -> & Hw0).
  rewrite reverse_app, reverse_involutive. apply chain_app; [done|].
  rewrite <- (app_nil_r w0). by repeat constructor.
Qed.

Lemma white_space_ne : Forall (λ w : list N, w ≠ []) white_space.
Proof. unfold white_space. repeat constructor; discriminate. Qed.

Lemma white_space_rev_ne :
  Forall (λ w : list N, w ≠ []) (reverse <$> white_space).
Proof. unfold white_space. repeat constructor; discriminate. Qed.

Lemma bytes_of_bytes l : Forall (λ n, n < 256)%N l → bytes (of_bytes l) = l.
Proof.
  unfold bytes, of_bytes. rewrite String.list_ascii_of_string_of_list_ascii.
  induction 1 as [|n l Hn _ IH]; [done|]. rewrite !fmap_cons.
  f_equal; [by apply N_ascii_embedding|done].
Qed.

Lemma bytes_bounded s : Forall (λ n, n < 256)%N (bytes s).
Proof.
  unfold bytes. apply Forall_fmap, Forall_forall. intros a _. simpl.
  apply N_ascii_bounded.
Qed.

(** What [TrimSpace] returns is the string without a run of white space
    at its front and one at its back, and neither starts nor ends with
    white space. *)
Lemma TrimSpace_spec s :
  ∃ l r, bytes s = l ++ bytes (TrimSpace s) ++ r ∧ blank l ∧ blank r ∧
    drop_one white_space (bytes (TrimSpace s)) = None ∧
    drop_one (reverse <$> white_space) (reverse (bytes (TrimSpace s))) = None.
Proof.
  unfold TrimSpace, trim_left, trim_right.
  destruct (trim_loop_spec white_space white_space_ne (length (bytes s)) (bytes s))
    as (l & Hl & Hbl & Hnl); [done|].
  set (t1 := trim_loop white_space (length (bytes s)) (bytes s)) in *.
  destruct (trim_loop_spec _ white_space_rev_ne (length t1) (reverse t1))
    as (l2 & Hl2 & Hbl2 & Hnl2); [by rewrite length_reverse|].
  set (u := trim_loop (reverse <$> white_space) (length t1) (reverse t1)) in *.
  assert (t1 = reverse u ++ reverse l2) as Ht1.
  { by rewrite <- reverse_app, <- Hl2, reverse_involutive. }
  assert (bytes (of_bytes (reverse u)) = reverse u) as ->.
  { apply bytes_of_bytes. pose proof (bytes_bounded s) as Hb.
    rewrite Hl, Ht1, !Forall_app in Hb. tauto. }
  exists l, (reverse l2). split; [by rewrite <- Ht1|].
  split; [done|]. split; [by apply chain_reverse|]. split.
  - destruct (drop_one white_space (reverse u)) as [x|] eqn:Hx; [|done].
    destruct (drop_one_Some _ _ _ Hx) as (w & Hw & Hu).
    destruct (drop_one_prefix white_space w (x ++ reverse l2) Hw) as [y Hy].
    rewrite app_assoc, <- Hu, <- Ht1 in Hy. congruence.
  - by rewrite reverse_involutive.
Qed.

Lemma drop_one_space w s :
  w ∈ white_space → drop_one white_space (w ++ s) = Some s.
Proof.
  unfold white_space at 1. intros H.
  repeat (apply elem_of_cons in H as [->|H]; [reflexivity|]).
  by apply elem_of_nil in H.
Qed.

Lemma trim_loop_blank s : blank s →
  ∀ fuel, length s ≤ fuel → trim_loop white_space fuel s = [].
Proof.
  induction 1 as [|w s Hw _ IH]; intros fuel Hlen.
  { by destruct fuel. }
  assert (w ≠ []) as Hne.
  { pose proof white_space_ne as Hall. by eapply Forall_forall in Hall. }
  rewrite length_app in Hlen. destruct fuel as [|fuel].
  { destruct w; [done|simpl in Hlen; lia]. }
  cbn [trim_loop]. rewrite drop_one_space by done. apply IH.
  destruct w; [done|simpl in Hlen; lia].
Qed.


(** ** The length of a user name *)

Lemma len_bytes s : length (bytes s) = len s.
Proof.
  unfold bytes, len. rewrite length_fmap.
  induction s as [|a s IH]; simpl; [done|]. by rewrite IH.
Qed.

(** A text has no more characters than bytes. *)
Lemma characters_le_len s : characters s ≤ len s.
Proof. unfold characters. rewrite <- len_bytes. apply length_filter. Qed.

(** C7, as the claim has it, fails: the reply U+00E9 trims to a name of
    one character, fewer than two, and the handshake goes through with
    it, because the name is two bytes long and [len] counts bytes. *)
Lemma one_character_name_admitted :
  characters (TrimSpace (e_acute +:+ nl)) = 1 ∧
  len (TrimSpace (e_acute +:+ nl)) = 2 ∧
  handleClient NewChatServer 7 (Some (e_acute +:+ nl)) =
    [ConnWrite "Enter your username: ";
     SendRegister (mkClient 7 e_acute);
     SendWelcome (mkClient 7 e_acute) (welcomeMsg e_acute);
     GoWritePump (mkClient 7 e_acute); GoReadPump (mkClient 7 e_acute); Park].
Proof. repeat split; vm_compute; reflexivity. Qed.

(** C7, amended: when the reply, trimmed of surrounding white space, is
    shorter than 2 bytes or longer than 32 bytes (as it is whenever it has
    more than 32 characters), the handshake writes the prompt and the
    error line, closes the connection, and sends no registration. *)
Theorem short_or_long_name_rejected
    (st : ChatServer) (conn : nat) (line : string) :
  len (TrimSpace line) < 2 ∨ 32 < len (TrimSpace line) ∨
    32 < characters (TrimSpace line) →
  handleClient st conn (Some line) =
    [ConnWrite "Enter your username: ";
     ConnWrite ("Username must be 2-32 characters." +:+ nl);
     ConnClose] ∧
  ∀ client, SendRegister client ∉ handleClient st conn (Some line).
Proof.
  intros Hlen.
  assert (len (TrimSpace line) < 2 ∨ 32 < len (TrimSpace line)) as Hbytes.
  { pose proof (characters_le_len (TrimSpace line)). lia. }
  destruct (handleClient_cases st conn (Some line))
    as [[[=] _]|[(? & [= <-] & _ & ->)|[(? & [= <-] & ? & _)
       |(? & [= <-] & ? & _)]]]; [|lia..].
  split; [done|]. no_register.
Qed.

Lemma short_or_long_name_rejected_witness :
  len (TrimSpace ("a" +:+ nl)) < 2 ∧
  handleClient NewChatServer 7 (Some ("a" +:+ nl)) =
    [ConnWrite "Enter your username: ";
     ConnWrite ("Username must be 2-32 characters." +:+ nl);
     ConnClose].
Proof.
  assert (len (TrimSpace ("a" +:+ nl)) < 2) as Hshort by (vm_compute; lia).
  split; [exact Hshort|].
  apply (short_or_long_name_rejected NewChatServer 7 ("a" +:+ nl)).
  left. exact Hshort.
Defined.

(** ** The lines of a client *)

Lemma append_assoc (a b c : string) : (a +:+ b) +:+ c = a +:+ (b +:+ c).
Proof.
  induction a as [|x a IH]; [done|].
  change (String x ((a +:+ b) +:+ c) = String x (a +:+ b +:+ c)). by f_equal.
Qed.

Lemma readPump_exit client line now reads :
  TrimSpace line = "exit" →
  readPump client (ReadLine line now :: reads) = [Unregister client].
Proof. intros Ht. simpl. by rewrite Ht. Qed.

Lemma readPump_empty client line now reads :
  TrimSpace line = "" →
  readPump client (ReadLine line now :: reads) = readPump client reads.
Proof. intros Ht. simpl. by rewrite Ht. Qed.

Lemma readPump_text client line now reads :
  TrimSpace line ≠ "exit" → TrimSpace line ≠ "" →
  readPump client (ReadLine line now :: reads) =
    Broadcast (formattedMsg now client (TrimSpace line)) :: readPump client reads.
Proof.
  intros Hexit Hne. simpl. rewrite decide_False by done.
  destruct (TrimSpace line); [done|]. done.
Qed.

(** C4, as the claim has it, fails: a line holding one space is neither
    empty nor ["exit"], yet nothing is sent for it; and for the line
    [" hi"] the text sent has [hi], not the line as received. *)
Lemma padded_line_not_forwarded_as_is :
  " " ≠ "exit" ∧ " " ≠ "" ∧
  readPump al [ReadLine (" " +:+ nl) five_past_two] = [] ∧
  readPump al [ReadLine (" hi" +:+ nl) five_past_two] =
    [Broadcast "[14:05:09] al: hi"] ∧
  readPump al [ReadLine (" hi" +:+ nl) five_past_two] ≠
    [Broadcast ("[14:05:09] al: " +:+ " hi")].
Proof.
  split; [done|]. split; [done|]. split; [vm_compute; reflexivity|].
  split; [vm_compute; reflexivity|]. vm_compute. discriminate.
Qed.

(** C4, amended: the pump acts on the line trimmed of surrounding white
    space, [t].  When [t] is ["exit"] (as for the line ["exit"]) the pump
    sends no broadcast for this line, reads no further and sends one
    deregistration; when [t] is empty (as for the empty line) nothing is
    sent for the line; otherwise one broadcast ["[HH:MM:SS] n: t"] is
    sent, the three fields of the clock in two digits each. *)
Theorem readPump_line
    (client : Client) (line : string) (now : Clock) (reads : list Read) :
  (TrimSpace line = "exit" →
     readPump client (ReadLine line now :: reads) = [Unregister client]) ∧
  (TrimSpace line = "" →
     readPump client (ReadLine line now :: reads) = readPump client reads) ∧
  (TrimSpace line ≠ "exit" → TrimSpace line ≠ "" →
     readPump client (ReadLine line now :: reads) =
       Broadcast ("[" +:+ two_digits (hour now) +:+ ":" +:+
                  two_digits (minute now) +:+ ":" +:+
                  two_digits (second now) +:+ "] " +:+
                  name client +:+ ": " +:+ TrimSpace line)
       :: readPump client reads) ∧
  TrimSpace ("exit" +:+ nl) = "exit" ∧ TrimSpace nl = "".
Proof.
  split; [apply readPump_exit|]. split; [apply readPump_empty|].
  split; [|split; vm_compute; reflexivity].
  intros Hexit Hne. rewrite readPump_text by done.
  unfold formattedMsg, Format. by rewrite !append_assoc.
Qed.

Lemma readPump_line_witness :
  readPump al [ReadLine ("hello" +:+ nl) five_past_two] =
    [Broadcast "[14:05:09] al: hello"].
Proof.
  destruct (readPump_line al ("hello" +:+ nl) five_past_two [])
    as (_ & _ & Htext & _).
  rewrite Htext; [vm_compute; reflexivity|vm_compute; discriminate..].
Defined.



(** * Further properties of the server *)

(** ** Byte strings and trimming *)

Lemma of_bytes_bytes s : of_bytes (bytes s) = s.
Proof.
  unfold of_bytes, bytes. induction s as [|a s IH]; [done|].
  simpl. f_equal; [apply ascii_N_embedding|exact IH].
Qed.

Lemma bytes_app a b : bytes (a +:+ b) = bytes a ++ bytes b.
Proof.
  unfold bytes. induction a as [|x a IH]; [done|].
  change (String x a +:+ b) with (String x (a +:+ b)).
  simpl. f_equal. exact IH.
Qed.

Lemma trim_loop_stop ws fuel s : drop_one ws s = None → trim_loop ws fuel s = s.
Proof. intros H. destruct fuel; simpl; [done|]. by rewrite H. Qed.

(** The loop takes a run of white space off and stops at what has none at
    its front. *)
Lemma trim_loop_chain l : blank l → ∀ x fuel,
  drop_one white_space x = None → length l ≤ fuel →
  trim_loop white_space fuel (l ++ x) = x.
Proof.
  induction 1 as [|w s Hw _ IH]; intros x fuel Hx Hlen.
  { by apply trim_loop_stop. }
  assert (w ≠ []) as Hne.
  { pose proof white_space_ne as Hall. by eapply Forall_forall in Hall. }
  rewrite length_app in Hlen. destruct fuel as [|fuel].
  { destruct w; [done|simpl in Hlen; lia]. }
  cbn [trim_loop]. rewrite <- app_assoc, drop_one_space by done. apply IH; [done|].
  destruct w; [done|simpl in Hlen; lia].
Qed.

Lemma white_space_newline_last :
  Forall (λ w : list N, last w = Some 10%N → w = [10%N]) white_space.
Proof. unfold white_space. repeat constructor; by intros [=]. Qed.

Lemma drop_one_snoc_newline x :
  x ≠ [] → drop_one white_space x = None →
  drop_one white_space (x ++ [10%N]) = None.
Proof.
  intros Hne Hx. destruct (drop_one white_space (x ++ [10%N])) as [y|] eqn:Hy; [|done].
  exfalso. destruct (drop_one_Some _ _ _ Hy) as (w & Hw & Heq).
  destruct y as [|b y _] using rev_ind.
  - rewrite app_nil_r in Heq. subst w.
    pose proof white_space_newline_last as Hall.
    eapply Forall_forall in Hall; [|exact Hw].
    specialize (Hall (last_snoc _ _)). apply (f_equal length) in Hall.
    rewrite length_app in Hall. clear Hx Hy Hw.
    destruct x as [|a x]; [by apply Hne|]. cbn [length] in Hall. lia.
  - rewrite app_assoc in Heq. apply app_inj_tail in Heq as [-> _].
    destruct (drop_one_prefix white_space w y Hw). congruence.
Qed.

Lemma trim_left_spec b :
  ∃ l, b = l ++ trim_left b ∧ blank l ∧ drop_one white_space (trim_left b) = None.
Proof. apply (trim_loop_spec white_space white_space_ne). done. Qed.

Lemma trim_left_newline b :
  trim_left (b ++ [10%N]) = if decide (trim_left b = []) then [] else trim_left b ++ [10%N].
Proof.
  destruct (trim_left_spec b) as (l & Hb & Hl & Hnone).
  revert Hb Hnone. generalize (trim_left b) as t. intros t -> Hnone.
  unfold trim_left. destruct (decide (t = [])) as [->|Hne].
  - rewrite app_nil_r. apply trim_loop_blank; [|done].
    apply chain_app; [done|].
    rewrite <- (app_nil_r [10%N]). constructor; [|constructor].
    unfold white_space. set_solver.
  - rewrite <- app_assoc. apply trim_loop_chain; [done|by apply drop_one_snoc_newline|].
    rewrite !length_app. lia.
Qed.

Lemma trim_right_newline t : trim_right (t ++ [10%N]) = trim_right t.
Proof.
  unfold trim_right. rewrite reverse_app, length_app, Nat.add_comm.
  change (reverse [10%N] ++ reverse t) with (10%N :: reverse t).
  assert (drop_one (reverse <$> white_space) (10%N :: reverse t) = Some (reverse t))
    as Hd by reflexivity.
  cbn [length Nat.add trim_loop]. by rewrite Hd.
Qed.

(** The line terminator is trimmed with the rest. *)
Lemma TrimSpace_newline s : TrimSpace (s +:+ nl) = TrimSpace s.
Proof.
  unfold TrimSpace. rewrite bytes_app.
  change (bytes nl) with [10%N]. rewrite trim_left_newline.
  destruct (decide (trim_left (bytes s) = [])) as [->|Hne]; [done|].
  by rewrite trim_right_newline.
Qed.

Lemma len_TrimSpace_le s : len (TrimSpace s) ≤ len s.
Proof.
  destruct (TrimSpace_spec s) as (l & r & Hs & _).
  apply (f_equal length) in Hs. rewrite !length_app, !len_bytes in Hs. lia.
Qed.

(** Trimming a trimmed text changes nothing. *)
Lemma TrimSpace_stop s :
  drop_one white_space (bytes s) = None →
  drop_one (reverse <$> white_space) (reverse (bytes s)) = None →
  TrimSpace s = s.
Proof.
  intros Hl Hr. unfold TrimSpace, trim_left, trim_right.
  rewrite (trim_loop_stop _ _ _ Hl), (trim_loop_stop _ _ _ Hr).
  by rewrite reverse_involutive, of_bytes_bytes.
Qed.

Lemma TrimSpace_idemp s : TrimSpace (TrimSpace s) = TrimSpace s.
Proof.
  destruct (TrimSpace_spec s) as (l & r & _ & _ & _ & Hl & Hr).
  by apply TrimSpace_stop.
Qed.

Lemma one_line_TrimSpace s : one_line s → one_line (TrimSpace s).
Proof.
  unfold one_line. destruct (TrimSpace_spec s) as (l & r & -> & _).
  rewrite !elem_of_app. tauto.
Qed.

Lemma one_line_app a b : one_line (a +:+ b) ↔ one_line a ∧ one_line b.
Proof. unfold one_line. rewrite bytes_app, elem_of_app. tauto. Qed.

(** ** The dispatch loop over schedules *)

Lemma range_empty `{R : MapRange} : range ∅ = [].
Proof.
  apply length_zero_iff_nil. by rewrite length_range, map_size_empty.
Qed.

Lemma observed_step_writePump client net_ok st st' :
  writePump client net_ok st = Next st' →
  clients st' = clients st ∧ pending st' = pending st ∧
  ∀ c, observed st' c = observed st c.
Proof.
  intros (Hc & Hp & Hothers & Hobs & _)%writePump_spec.
  split; [done|]. split; [done|]. intros c.
  destruct (decide (c = client)) as [->|Hne]; [done|].
  by apply observed_peer, Hothers.
Qed.

(** The banner goes to the back of the client's lines, and to nobody
    else. *)
Lemma welcome_sent client st st' :
  welcome client st = Next st' →
  clients st' = clients st ∧ pending st' = pending st ∧
  observed st' client =
    observed st client ++ [line (welcomeMsg (name client))] ∧
  ∀ c, c ≠ client → observed st' c = observed st c.
Proof.
  unfold welcome. destruct (closed _); [done|].
  destruct (_ <? _)%nat; [|done]. intros [= <-].
  split; [done|]. split; [done|]. split.
  - apply observed_sent. rewrite peer_set_peer. by rewrite decide_True.
  - intros c Hne. apply observed_peer. rewrite peer_set_peer.
    by rewrite decide_False.
Qed.

Section Arrival.
Context {R : MapRange}.

(** Once [run] is in a send and no banner is due, only writers move. *)
Lemma play_blocked tr : ∀ st st',
  pending st ≠ [] → play tr [] st = Next st' →
  clients st' = clients st ∧ ∀ c, observed st' c = observed st c.
Proof.
  induction tr as [|[[ev|client net_ok]|client] tr IH]; intros st st' Hp H;
    cbn [play step] in H.
  - by injection H as <-.
  - by rewrite run_pending in H.
  - destruct (writePump client net_ok st) as [st1| |] eqn:H1; try done.
    apply observed_step_writePump in H1 as (Hc1 & Hp1 & Hobs1).
    destruct (IH st1 st') as [Hc Hobs]; [congruence|done|].
    split; [congruence|]. intros c. by rewrite Hobs.
  - rewrite decide_False in H; [done|]. apply not_elem_of_nil.
Qed.

(** With [run] in a send and the banner of [c0] due, that banner is all
    that can still be sent. *)
Lemma play_greeting tr : ∀ st st' c0,
  pending st ≠ [] → play tr [c0] st = Next st' →
  clients st' = clients st ∧
  ∀ c, observed st' c = observed st c ∨
       (c = c0 ∧
        observed st' c = observed st c ++ [line (welcomeMsg (name c))]).
Proof.
  induction tr as [|[[ev|client net_ok]|client] tr IH]; intros st st' c0 Hp H;
    cbn [play step] in H.
  - injection H as <-. split; [done|]. intros c. by left.
  - by rewrite run_pending in H.
  - destruct (writePump client net_ok st) as [st1| |] eqn:H1; try done.
    apply observed_step_writePump in H1 as (Hc1 & Hp1 & Hobs1).
    destruct (IH st1 st' c0) as [Hc Hobs]; [congruence|done|].
    split; [congruence|]. intros c. rewrite <- Hobs1. apply Hobs.
  - destruct (decide (client ∈ [c0])) as [Hin|]; [|done].
    apply list_elem_of_singleton in Hin as ->.
    destruct (welcome c0 st) as [st1| |] eqn:H1; try done.
    apply welcome_sent in H1 as (Hc1 & Hp1 & Hown & Hothers).
    cbn [take_out] in H. rewrite decide_True in H by done.
    destruct (play_blocked tr st1 st') as [Hc Hobs]; [congruence|done|].
    split; [congruence|]. intros c. rewrite Hobs.
    destruct (decide (c = c0)) as [->|Hne]; [by right|].
    left. by apply Hothers.
Qed.

(** X1. A server that starts with nobody in sends the first client its
    welcome banner, and nothing else to anyone, ever.  From a server
    whose live set is empty and whose [run] is at its [select] (as
    [NewChatServer]), over every schedule of the whole program (events
    [run] receives, rounds of writers, and the banner send of a handshake
    whose registration [run] has received), the live set never holds more
    than one client, and the lines of a client, written and queued, are
    those it had at the start, followed for the one client in the live
    set by its banner at most: no chat line, announcement or roster is
    added for anyone.  A chat line finds nobody to go to, and the first
    registration leaves [run] in its own send. *)
Theorem empty_server_sends_banner_only
    (tr : list Move) (st st' : ChatServer) :
  clients st = ∅ → pending st = [] →
  play tr [] st = Next st' →
  size (clients st') ≤ 1 ∧
  ∀ c, observed st' c = observed st c ∨
       (clients st' = {[c := true]} ∧
        observed st' c = observed st c ++ [line (welcomeMsg (name c))]).
Proof.
  revert st. induction tr as [|[[[c0|c0|message]|client net_ok]|client] tr IH];
    intros st Hc Hp H; cbn [play step] in H.
  - injection H as <-. rewrite Hc, map_size_empty. split; [lia|]. by left.
  - unfold run in H. rewrite Hp in H. cbn [app] in H.
    apply play_greeting in H as [Hcs Hobs]; [|done]. simpl in Hcs.
    rewrite Hc, insert_empty in Hcs. rewrite Hcs, map_size_singleton.
    split; [lia|]. intros c. destruct (Hobs c) as [?|[-> ?]]; [by left|by right].
  - unfold run in H. rewrite Hp, Hc, lookup_empty in H.
    apply play_blocked in H as [Hcs Hobs]; [|done]. simpl in Hcs.
    rewrite Hcs, map_size_empty. split; [lia|]. intros c. left. apply Hobs.
  - unfold run in H. rewrite Hp, Hc, range_empty in H. cbn [fan_out] in H.
    by apply IH.
  - destruct (writePump client net_ok st) as [st1| |] eqn:H1; try done.
    apply observed_step_writePump in H1 as (Hc1 & Hp1 & Hobs1).
    destruct (IH st1) as [Hsz Hobs]; [congruence|congruence|done|].
    split; [done|]. intros c. rewrite <- Hobs1. apply Hobs.
  - rewrite decide_False in H; [done|]. apply not_elem_of_nil.
Qed.
End Arrival.

Lemma empty_server_sends_banner_only_witness :
  clients NewChatServer = ∅ ∧ pending NewChatServer = [] ∧
  play first_arrival [] NewChatServer =
    Next (final (play first_arrival [] NewChatServer)) ∧
  size (clients (final (play first_arrival [] NewChatServer))) ≤ 1 ∧
  ∀ c, observed (final (play first_arrival [] NewChatServer)) c =
         observed NewChatServer c ∨
       (clients (final (play first_arrival [] NewChatServer)) = {[c := true]} ∧
        observed (final (play first_arrival [] NewChatServer)) c =
          observed NewChatServer c ++ [line (welcomeMsg (name c))]).
Proof.
  assert (play first_arrival [] NewChatServer =
          Next (final (play first_arrival [] NewChatServer))) as He
    by (vm_compute; reflexivity).
  split; [reflexivity|]. split; [reflexivity|]. split; [exact He|].
  exact (empty_server_sends_banner_only first_arrival NewChatServer _
           eq_refl eq_refl He).
Defined.

(** That schedule, computed: [al] is sent the banner, and the join
    announcement and the roster stay with [run]. *)
Example first_arrival_gets_banner :
  play first_arrival [] NewChatServer =
    Next (mkServer {[al := true]}
            ["*** al has joined the chat ***"; "*** Online users: al ***"]
            {[al := mkPeer (mkChan [] false) [] [line (welcomeMsg "al")] false]}).
Proof. vm_compute. reflexivity. Qed.

(** The fan-out of a broadcast over one order and over another. *)
Lemma fan_out_orders message st order1 order2 st1 :
  NoDup order1 → NoDup order2 → (∀ c, c ∈ order1 ↔ c ∈ order2) →
  fan_out message order1 st = Some st1 →
  fan_out message order2 st = Some st1.
Proof.
  intros Hn1 Hn2 Heq H1.
  pose proof (fan_out_Some_open _ _ _ _ Hn1 H1) as Hopen.
  destruct (fan_out_spec message order1 st Hn1 Hopen) as (s1 & Hf1 & Hp1 & Hc1 & Hh1).
  destruct (fan_out_spec message order2 st Hn2) as (s2 & Hf2 & Hp2 & Hc2 & Hh2).
  { intros c Hc. apply Hopen. by apply Heq. }
  rewrite H1 in Hf1. injection Hf1 as <-. rewrite Hf2. f_equal.
  destruct s2 as [cs2 pd2 hp2], st1 as [cs1 pd1 hp1]. simpl in *. f_equal.
  - apply map_eq. intros c. rewrite Hc1, Hc2.
    destruct (decide (c ∈ order1 ∧ full (peer st c))) as [[]|Hn].
    + rewrite decide_True; [done|]. split; [by apply Heq|done].
    + rewrite decide_False; [done|]. rewrite <- Heq. tauto.
  - congruence.
  - apply map_eq. intros c. rewrite Hh1, Hh2.
    destruct (decide (c ∈ order1)) as [Hin|Hout].
    + rewrite decide_True; [done|]. by apply Heq.
    + rewrite decide_False; [done|]. by rewrite <- Heq.
Qed.

(** X2. The order in which [range server.clients] visits the map does not
    matter to a broadcast: over any two orders the fan-out ends in the same
    server, or panics in both. *)
Theorem Broadcast_any_order (R1 R2 : MapRange) (message : string) (st : ChatServer) :
  @run R1 (Broadcast message) st = @run R2 (Broadcast message) st.
Proof.
  unfold run. destruct (pending st); [|done].
  assert (∀ c, c ∈ @range R1 (clients st) ↔ c ∈ @range R2 (clients st)) as Heq.
  { intros c. by rewrite !elem_of_range. }
  pose proof (@NoDup_range R1 (clients st)) as Hn1.
  pose proof (@NoDup_range R2 (clients st)) as Hn2.
  destruct (fan_out message (@range R1 (clients st)) st) as [s1|] eqn:H1.
  - by rewrite (fan_out_orders message st _ _ s1 Hn1 Hn2 Heq H1).
  - destruct (fan_out message (@range R2 (clients st)) st) as [s2|] eqn:H2; [|done].
    assert (∀ c, c ∈ @range R2 (clients st) ↔ c ∈ @range R1 (clients st)) as Heq'.
    { intros c. by rewrite Heq. }
    rewrite (fan_out_orders message st _ _ s2 Hn2 Hn1 Heq' H2) in H1. done.
Qed.

(** X3. A deregistration, as a registration, leaves [run] in a send on
    [server.broadcast] that nobody receives. On a ready server
    [Unregister(client)] takes the client out of the live set, and after it
    [run] receives no event any more: whatever is scheduled next, only
    writers move, and nobody is sent anything new. *)
Theorem Unregister_blocks_run `{R : MapRange} (st : ChatServer) (client : Client) :
  ready st →
  ∃ st1, run (Unregister client) st = Next st1 ∧
    clients st1 = delete client (clients st) ∧
    (∀ ev, run ev st1 = NoStep) ∧
    (∀ tr st2, exec tr st1 = Next st2 →
       Forall is_pump tr ∧ clients st2 = clients st1 ∧
       ∀ c, observed st2 c = observed st1 c).
Proof.
  intros [Hp Hopen].
  assert (∀ cs hp, let st1 := mkServer cs (leaveMsg client :: sendUserList cs) hp in
            (∀ ev, run ev st1 = NoStep) ∧
            (∀ tr st2, exec tr st1 = Next st2 →
               Forall is_pump tr ∧ clients st2 = clients st1 ∧
               ∀ c, observed st2 c = observed st1 c)) as Hstuck.
  { intros cs hp st1. split; [by intros ev; apply run_pending|].
    intros tr st2 H. eapply exec_pending in H; [|done]. tauto. }
  destruct (clients st !! client) as [b|] eqn:Hc.
  - eexists. split.
    { apply Unregister_member; [done|by exists b|by apply (Hopen client b)]. }
    split; [done|]. apply Hstuck.
  - eexists. split; [by apply Unregister_stranger|].
    split; [simpl; by rewrite delete_id|]. apply Hstuck.
Qed.

Lemma Unregister_blocks_run_witness :
  ready room_bob ∧
  ∃ st1, run (Unregister bob) room_bob = Next st1 ∧
         clients st1 = delete bob (clients room_bob) ∧
         ∀ ev, run ev st1 = NoStep.
Proof.
  assert (ready room_bob) as Hr by ready_by_compute.
  split; [exact Hr|].
  destruct (Unregister_blocks_run room_bob bob Hr) as (st1 & H1 & H2 & H3 & _).
  exists st1. auto.
Defined.

Lemma step_no_panic `{R : MapRange} a st : members_open st → step a st ≠ Panic.
Proof.
  intros Hopen. destruct a as [[client|client|message]|client net_ok]; simpl.
  - unfold run. by destruct (pending st).
  - unfold run. destruct (pending st); [|done].
    destruct (clients st !! client) as [b|] eqn:Hc; [|done].
    by rewrite (Hopen client b Hc).
  - unfold run. destruct (pending st); [|done].
    destruct (fan_out_spec message (range (clients st)) st) as (st' & -> & _);
      [apply NoDup_range| |done].
    intros c [b Hb]%elem_of_range. by apply (Hopen c b).
  - unfold writePump. destruct (writer_done _); [done|].
    destruct (buf _); [by destruct (closed _)|by destruct (_ && _)].
Qed.

(** X4. Without a registration the server never panics. From a server whose
    members all have their channel open, a schedule of broadcasts,
    deregistrations and writer rounds never sends on a closed channel and
    never closes a channel twice. *)
Theorem relaying_never_panics `{R : MapRange} (tr : list Action) (st : ChatServer) :
  members_open st → Forall (λ a, ¬ is_register a) tr →
  exec tr st ≠ Panic.
Proof.
  revert st. induction tr as [|a tr IH]; intros st Hopen Htr; simpl; [done|].
  apply Forall_cons in Htr as [Ha Htr].
  destruct (step a st) as [st1| |] eqn:Hs; [|by apply step_no_panic in Hs|done].
  apply IH; [|done]. apply (step_members_open a st st1); [done| |done].
  intros c ->. by destruct Ha.
Qed.

Lemma relaying_never_panics_witness :
  members_open room_al_bob ∧
  Forall (λ a, ¬ is_register a) two_broadcasts ∧
  exec two_broadcasts room_al_bob ≠ Panic.
Proof.
  assert (members_open room_al_bob) as Hm
    by (refine (bool_decide_unpack _ _); vm_compute; exact I).
  assert (Forall (λ a, ¬ is_register a) two_broadcasts) as Hf
    by (repeat constructor; simpl; tauto).
  split; [exact Hm|]. split; [exact Hf|].
  exact (relaying_never_panics two_broadcasts room_al_bob Hm Hf).
Defined.

Lemma step_in_or_released `{R : MapRange} a st st' c :
  a ≠ Recv (Register c) → step a st = Next st' →
  in_or_released c st → in_or_released c st'.
Proof.
  intros Hreg Hs Hinv.
  destruct (step_touched a st st' c Hs)
    as [Hp Hc | -> _ _ | message _ Hm Hp Hc | _ Hm Hp Hc | net_ok -> Hc _ _ Hcl].
  - unfold in_or_released. by rewrite Hp, Hc.
  - done.
  - left. by rewrite Hc, Hp.
  - right. rewrite Hp. split; [done|]. split; [done|]. simpl. set_solver.
  - simpl in Hs. apply writePump_spec in Hs as (_ & _ & _ & _ & Hclosed).
    unfold in_or_released. rewrite Hc, Hclosed.
    destruct Hinv as [?|(? & ? & Hin)]; [by left|right].
    split; [done|]. split; [done|].
    destruct Hcl as [[-> _]|[-> _]]; set_solver.
Qed.

(** X5. Membership and release go together. A member with an open channel,
    as long as it is not registered again, is either still a member with its
    channel open, or it is out of the live set with its channel closed and
    its connection closed by [run]: [run] never drops the one without the
    other. *)
Theorem leaving_releases `{R : MapRange}
    (tr : list Action) (st st' : ChatServer) (c : Client) :
  is_Some (clients st !! c) → closed (messages (peer st c)) = false →
  Forall (λ a, a ≠ Recv (Register c)) tr →
  exec tr st = Next st' →
  (is_Some (clients st' !! c) ∧ closed (messages (peer st' c)) = false) ∨
  (clients st' !! c = None ∧ closed (messages (peer st' c)) = true ∧
   ByRun ∈ closes (peer st' c)).
Proof.
  intros Hm Ho Htr H. assert (in_or_released c st) as Hinv by (by left).
  clear Hm Ho. revert st Hinv H.
  induction tr as [|a tr IH]; intros st Hinv H; simpl in H.
  { by injection H as <-. }
  apply Forall_cons in Htr as [Ha Htr].
  destruct (step a st) as [st1| |] eqn:Hs; try done.
  apply (IH Htr st1); [|done]. by eapply step_in_or_released.
Qed.

Lemma leaving_releases_witness :
  is_Some (clients room_bob !! bob) ∧
  closed (messages (peer room_bob bob)) = false ∧
  Forall (λ a, a ≠ Recv (Register bob)) bob_leaves ∧
  exec bob_leaves room_bob = Next (final (exec bob_leaves room_bob)) ∧
  ((is_Some (clients (final (exec bob_leaves room_bob)) !! bob) ∧
    closed (messages (peer (final (exec bob_leaves room_bob)) bob)) = false) ∨
   (clients (final (exec bob_leaves room_bob)) !! bob = None ∧
    closed (messages (peer (final (exec bob_leaves room_bob)) bob)) = true ∧
    ByRun ∈ closes (peer (final (exec bob_leaves room_bob)) bob))).
Proof.
  assert (is_Some (clients room_bob !! bob)) as Hm by (vm_compute; eauto).
  assert (closed (messages (peer room_bob bob)) = false) as Ho
    by (vm_compute; reflexivity).
  assert (Forall (λ a, a ≠ Recv (Register bob)) bob_leaves) as Hf
    by (repeat constructor; discriminate).
  assert (exec bob_leaves room_bob = Next (final (exec bob_leaves room_bob)))
    as He by (vm_compute; reflexivity).
  split; [exact Hm|]. split; [exact Ho|]. split; [exact Hf|]. split; [exact He|].
  exact (leaving_releases bob_leaves room_bob _ bob Hm Ho Hf He).
Defined.

(** ** The inbound pump *)

Lemma readPump_cons client r reads :
  readPump client (r :: reads) =
  if decide (stops r) then [Unregister client]
  else match r with
       | ReadLine line now =>
           if decide (TrimSpace line = "") then readPump client reads
           else Broadcast (formattedMsg now client (TrimSpace line))
                :: readPump client reads
       | ReadErr => []
       end.
Proof.
  destruct r as [line now|]; simpl; [|done].
  destruct (decide (TrimSpace line = "exit")); [done|].
  destruct (decide (TrimSpace line = "")) as [->|Hne]; [done|].
  by destruct (TrimSpace line).
Qed.

(** X6. The events of an inbound pump are broadcasts, followed by one
    deregistration exactly when a read ended the loop (an error, or a line
    that trims to [exit]); a pump never submits more than one event per
    read, plus the deregistration. *)
Theorem readPump_shape (client : Client) (reads : list Read) :
  length (readPump client reads) ≤ S (length reads) ∧
  (Exists stops reads →
     ∃ texts, readPump client reads = (Broadcast <$> texts) ++ [Unregister client]) ∧
  (¬ Exists stops reads →
     ∃ texts, readPump client reads = Broadcast <$> texts).
Proof.
  induction reads as [|r reads (IHlen & IHstop & IHgo)].
  { split; [simpl; lia|]. split; [by intros ?%Exists_nil|]. by exists []. }
  rewrite readPump_cons. destruct (decide (stops r)) as [Hr|Hr].
  { split; [simpl; lia|]. split; [by exists []|]. intros []. by left. }
  assert (Exists stops (r :: reads) ↔ Exists stops reads) as Hex.
  { rewrite Exists_cons. tauto. }
  destruct r as [line now|]; [|by destruct Hr].
  destruct (decide (TrimSpace line = "")).
  - split; [simpl; lia|]. by rewrite Hex.
  - split; [simpl; lia|]. rewrite Hex. split.
    + intros (texts & ->)%IHstop. by eexists (_ :: texts).
    + intros (texts & ->)%IHgo. by eexists (_ :: texts).
Qed.

(** X7. What a pump has submitted is never taken back: more reads only add
    events at the end, and none at all once the loop was left. *)
Theorem readPump_extends (client : Client) (reads more : list Read) :
  readPump client reads `prefix_of` readPump client (reads ++ more) ∧
  (Exists stops reads →
     readPump client (reads ++ more) = readPump client reads).
Proof.
  induction reads as [|r reads [IHp IHs]].
  { split; [apply prefix_nil|by intros ?%Exists_nil]. }
  rewrite <- app_comm_cons, !readPump_cons.
  destruct (decide (stops r)) as [Hr|Hr]; [done|].
  assert (Exists stops (r :: reads) ↔ Exists stops reads) as Hex.
  { rewrite Exists_cons. tauto. }
  rewrite Hex. destruct r as [line now|]; [|by destruct Hr].
  destruct (decide (TrimSpace line = "")); [done|].
  split; [by apply prefix_cons|]. intros H. by rewrite IHs.
Qed.

(** ** Lines *)

Lemma one_line_digit n : one_line (digit n).
Proof.
  unfold one_line, digit. assert (n mod 10 < 10) as Hlt by (apply Nat.mod_upper_bound; lia).
  revert Hlt. generalize (n mod 10). intros k Hk.
  do 10 (destruct k as [|k]; [no_newline|]). lia.
Qed.

Lemma one_line_Format now : one_line (Format now).
Proof.
  unfold Format, two_digits. rewrite !one_line_app.
  repeat split; try apply one_line_digit; no_newline.
Qed.

Lemma one_line_formattedMsg now client message :
  one_line (name client) → one_line message →
  one_line (formattedMsg now client message).
Proof.
  intros Hn Hm. unfold formattedMsg. rewrite !one_line_app.
  repeat split; try done; try apply one_line_Format; no_newline.
Qed.

(** X8. What a pump forwards is one line. If the client's name has no line
    terminator and every read is a line as [ReadString] returns it, no
    broadcast text holds a line terminator, so that the line [writePump]
    writes for it is one line. *)
Theorem forwarded_text_is_one_line (client : Client) (reads : list Read) :
  one_line (name client) → Forall whole_line reads →
  Forall one_line_event (readPump client reads).
Proof.
  intros Hn. induction 1 as [|r reads Hr _ IH]; [constructor|].
  rewrite readPump_cons. destruct (decide (stops r)); [by repeat constructor|].
  destruct r as [line now|]; [|constructor].
  destruct (decide (TrimSpace line = "")); [done|].
  constructor; [|done]. simpl. apply one_line_formattedMsg; [done|].
  destruct Hr as (content & -> & Hc). rewrite TrimSpace_newline.
  by apply one_line_TrimSpace.
Qed.

Lemma forwarded_text_is_one_line_witness :
  one_line (name al) ∧
  Forall whole_line [ReadLine ("hello" +:+ nl) five_past_two; ReadErr] ∧
  Forall one_line_event
    (readPump al [ReadLine ("hello" +:+ nl) five_past_two; ReadErr]).
Proof.
  assert (one_line (name al)) as Hn by no_newline.
  assert (Forall whole_line [ReadLine ("hello" +:+ nl) five_past_two; ReadErr])
    as Hw.
  { repeat constructor. exists "hello". split; [reflexivity|no_newline]. }
  split; [exact Hn|]. split; [exact Hw|].
  exact (forwarded_text_is_one_line al _ Hn Hw).
Defined.

Lemma one_line_Join elems sep :
  Forall one_line elems → one_line sep → one_line (Join elems sep).
Proof.
  intros Hall Hsep. induction Hall as [|e rest He Hrest IH]; [no_newline|].
  destruct rest as [|e' rest]; [done|].
  change (Join (e :: e' :: rest) sep) with (e +:+ sep +:+ Join (e' :: rest) sep).
  apply one_line_app. split; [done|]. apply one_line_app. by split.
Qed.

Lemma one_line_sendUserList `{R : MapRange} cs :
  named_on_one_line cs → Forall one_line (sendUserList cs).
Proof.
  intros Hcs. destruct (sendUserList_spec cs) as [[_ ->]|[_ ->]]; [constructor|].
  repeat constructor. unfold userList.
  apply one_line_app. split; [no_newline|]. apply one_line_app.
  split; [|no_newline]. apply one_line_Join; [|no_newline].
  apply Forall_fmap, Forall_forall. intros c [b Hc]%elem_of_range.
  by apply (Hcs c b).
Qed.

(** X9. The announcements of [run] are one line each. When the names of the
    members and of the client of a registration or deregistration have no
    line terminator, neither the join or leave announcement nor the roster
    has one, and the members' names still have none afterwards. *)
Theorem announcements_are_one_line `{R : MapRange}
    (ev : Event) (client : Client) (st st' : ChatServer) :
  membership_event ev client → one_line (name client) →
  named_on_one_line (clients st) →
  run ev st = Next st' →
  Forall one_line (pending st') ∧ named_on_one_line (clients st').
Proof.
  intros Hev Hname Hcs. unfold run. destruct (pending st); [|done].
  assert (one_line (joinMsg client)) as Hjoin.
  { unfold joinMsg. apply one_line_app. split; [no_newline|].
    apply one_line_app. split; [done|no_newline]. }
  assert (one_line (leaveMsg client)) as Hleave.
  { unfold leaveMsg. apply one_line_app. split; [no_newline|].
    apply one_line_app. split; [done|no_newline]. }
  assert (named_on_one_line (delete client (clients st))) as Hdel.
  { intros c b [_ Hc]%lookup_delete_Some. by apply (Hcs c b). }
  assert (named_on_one_line (<[client:=true]> (clients st))) as Hins.
  { by apply map_Forall_insert_2. }
  destruct Hev as [-> | ->].
  - intros [= <-]. simpl. split; [|done]. constructor; [done|].
    by apply one_line_sendUserList.
  - destruct (clients st !! client).
    + destruct (closed _); [done|]. intros [= <-]. simpl. split; [|done].
      constructor; [done|]. by apply one_line_sendUserList.
    + intros [= <-]. simpl. split; [|done]. constructor; [done|].
      by apply one_line_sendUserList.
Qed.

Lemma announcements_are_one_line_witness :
  membership_event (Unregister bob) bob ∧ one_line (name bob) ∧
  named_on_one_line (clients room_al_bob) ∧
  run (Unregister bob) room_al_bob =
    Next (final (run (Unregister bob) room_al_bob)) ∧
  Forall one_line (pending (final (run (Unregister bob) room_al_bob))).
Proof.
  assert (membership_event (Unregister bob) bob) as Hev by (by right).
  assert (one_line (name bob)) as Hn by no_newline.
  assert (named_on_one_line (clients room_al_bob)) as Hcs.
  { intros c b Hc. change (clients room_al_bob) with
      (<[al := true]> (<[bob := true]> (∅ : gmap Client bool))) in Hc.
    apply lookup_insert_Some in Hc as [[<- _]|[_ Hc]]; [no_newline|].
    apply lookup_insert_Some in Hc as [[<- _]|[_ Hc]]; [no_newline|].
    by rewrite lookup_empty in Hc. }
  assert (run (Unregister bob) room_al_bob =
          Next (final (run (Unregister bob) room_al_bob))) as He
    by (vm_compute; reflexivity).
  split; [exact Hev|]. split; [exact Hn|]. split; [exact Hcs|]. split; [exact He|].
  destruct (announcements_are_one_line _ bob room_al_bob _ Hev Hn Hcs He) as [H _].
  exact H.
Defined.

(** ** The outbound pump *)

(** What a round of a writer moves: nothing, or the oldest text of the
    channel, to the connection. *)
Lemma writePump_moves client net_ok st st' :
  writePump client net_ok st = Next st' →
  ∃ taken,
    buf (messages (peer st client)) = taken ++ buf (messages (peer st' client)) ∧
    writes (peer st' client) = writes (peer st client) ++ (line <$> taken) ∧
    length taken ≤ 1.
Proof.
  unfold writePump. intros H.
  destruct (writer_done (peer st client)); [done|].
  destruct (buf (messages (peer st client))) as [|message rest] eqn:Hb.
  - destruct (closed (messages (peer st client))); [|done]. injection H as <-.
    exists []. rewrite peer_set_peer, decide_True by done. simpl.
    rewrite Hb, app_nil_r. split; [done|]. split; [done|]. lia.
  - exists [message].
    destruct (net_ok && bool_decide (closes (peer st client) = []));
      injection H as <-; rewrite peer_set_peer, decide_True by done;
      (split; [done|]; split; [done|]; simpl; lia).
Qed.

(** X10. Writers hand a channel's texts to the connection in order. Over any
    schedule of writer rounds the live set and [run] are left alone, and for
    every client the texts taken from its channel are a prefix of what was
    queued, handed to [Write] in that order, each followed by a line
    terminator, after the earlier ones. *)
Theorem writers_keep_order `{R : MapRange}
    (tr : list Action) (st st' : ChatServer) (c : Client) :
  Forall is_pump tr → exec tr st = Next st' →
  clients st' = clients st ∧ pending st' = pending st ∧
  ∃ taken,
    buf (messages (peer st c)) = taken ++ buf (messages (peer st' c)) ∧
    writes (peer st' c) = writes (peer st c) ++ (line <$> taken).
Proof.
  revert st. induction tr as [|a tr IH]; intros st Htr H; simpl in H.
  { injection H as <-. split; [done|]. split; [done|]. exists [].
    by rewrite app_nil_r. }
  apply Forall_cons in Htr as [Ha Htr].
  destruct a as [ev|client net_ok]; [done|]. simpl in H.
  destruct (writePump client net_ok st) as [st1| |] eqn:Hw; try done.
  destruct (IH st1 Htr H) as (Hc & Hp & taken & Hbuf & Hwr).
  pose proof (writePump_spec _ _ _ _ Hw) as (Hc1 & Hp1 & Hothers & _).
  split; [congruence|]. split; [congruence|].
  destruct (decide (c = client)) as [->|Hne].
  - destruct (writePump_moves _ _ _ _ Hw) as (t1 & Hb1 & Hw1 & _).
    exists (t1 ++ taken). rewrite Hb1, Hbuf, Hwr, Hw1, fmap_app.
    by rewrite !app_assoc.
  - exists taken. by rewrite <- (Hothers c Hne).
Qed.

Lemma writers_keep_order_witness :
  Forall is_pump [Pump al true; Pump bob false] ∧
  exec [Pump al true; Pump bob false] room_one_queued =
    Next (final (exec [Pump al true; Pump bob false] room_one_queued)) ∧
  ∃ taken,
    buf (messages (peer room_one_queued al)) =
      taken ++ buf (messages (peer (final (exec [Pump al true; Pump bob false]
                                                room_one_queued)) al)) ∧
    writes (peer (final (exec [Pump al true; Pump bob false] room_one_queued)) al) =
      writes (peer room_one_queued al) ++ (line <$> taken).
Proof.
  assert (Forall is_pump [Pump al true; Pump bob false]) as Hf
    by (repeat constructor).
  assert (exec [Pump al true; Pump bob false] room_one_queued =
          Next (final (exec [Pump al true; Pump bob false] room_one_queued)))
    as He by (vm_compute; reflexivity).
  split; [exact Hf|]. split; [exact He|].
  destruct (writers_keep_order _ room_one_queued _ al Hf He) as (_ & _ & H).
  exact H.
Defined.

Lemma step_winding_down `{R : MapRange} a st st' c n :
  step a st = Next st' → winding_down c n st → winding_down c n st'.
Proof.
  intros Hs [Hcl Hw].
  destruct (step_touched a st st' c Hs)
    as [Hp Hc | -> Hp _ | message _ Hm Hp Hc | _ Hm Hp Hc | net_ok -> Hc _ Hd Hcl'].
  - unfold winding_down. by rewrite Hp.
  - unfold winding_down. by rewrite Hp.
  - unfold winding_down. by rewrite Hp.
  - unfold winding_down. rewrite Hp. simpl. split; [|done].
    by destruct (closes (peer st c)).
  - simpl in Hs. pose proof Hs as (taken & _ & Hwr & Hlen)%writePump_moves.
    assert (writer_done (peer st' c) = true) as Hdone.
    { unfold writePump in Hs. rewrite Hd in Hs.
      destruct (buf (messages (peer st c))).
      - destruct (closed (messages (peer st c))); [|done]. injection Hs as <-.
        by rewrite peer_set_peer, decide_True.
      - rewrite bool_decide_eq_false_2, andb_false_r in Hs by done.
        injection Hs as <-. by rewrite peer_set_peer, decide_True. }
    split.
    + destruct Hcl' as [[-> _]|[-> _]]; [done|]. by destruct (closes (peer st c)).
    + destruct Hw as [Hw|[_ Hw]]; [|congruence].
      rewrite Hwr, length_app, length_fmap, Hw.
      destruct taken as [|? [|]]; simpl in *; [left; lia|right; split; [lia|done]|lia].
Qed.

(** X11. Once a connection was closed, its writer hands at most one more
    line to [Write], whatever is scheduled: that write fails, and the writer
    has returned. *)
Theorem closed_connection_gets_one_write `{R : MapRange}
    (tr : list Action) (st st' : ChatServer) (c : Client) :
  closes (peer st c) ≠ [] → exec tr st = Next st' →
  length (writes (peer st' c)) ≤ S (length (writes (peer st c))) ∧
  (length (writes (peer st' c)) = S (length (writes (peer st c))) →
     writer_done (peer st' c) = true).
Proof.
  intros Hcl H.
  assert (winding_down c (length (writes (peer st c))) st) as Hinv by (split; auto).
  revert Hinv H. generalize (length (writes (peer st c))) as n. clear Hcl.
  intros n. revert st. induction tr as [|a tr IH]; intros st Hinv H; simpl in H.
  { injection H as <-. destruct Hinv as [_ [->|[-> ?]]]; split; (lia || done). }
  destruct (step a st) as [st1| |] eqn:Hs; try done.
  apply (IH st1); [|done]. by eapply step_winding_down.
Qed.

Lemma closed_connection_gets_one_write_witness :
  closes (peer room_bob_gone bob) ≠ [] ∧
  exec [Pump bob true] room_bob_gone =
    Next (final (exec [Pump bob true] room_bob_gone)) ∧
  length (writes (peer (final (exec [Pump bob true]
                                    room_bob_gone)) bob))
    ≤ S (length (writes (peer room_bob_gone bob))).
Proof.
  assert (closes (peer room_bob_gone bob) ≠ []) as Hc by (vm_compute; discriminate).
  assert (exec [Pump bob true] room_bob_gone =
          Next (final (exec [Pump bob true] room_bob_gone)))
    as He by (vm_compute; reflexivity).
  split; [exact Hc|]. split; [exact He|].
  destruct (closed_connection_gets_one_write _ room_bob_gone _ bob Hc He) as [H _].
  exact H.
Defined.

(** ** The handshake and plain texts *)

Lemma drop_one_visible b rest :
  visible b → drop_one white_space (b :: rest) = None.
Proof.
  unfold visible. intros Hb. unfold white_space. cbn [drop_one strip].
  repeat match goal with
         | |- context [(?x =? b)%N] =>
             destruct (N.eqb_spec x b) as [<-|_]; [lia|cbn iota]
         end.
  done.
Qed.

Lemma drop_one_rev_visible b rest :
  visible b → drop_one (reverse <$> white_space) (b :: rest) = None.
Proof.
  unfold visible. intros Hb.
  let r := eval vm_compute in (reverse <$> white_space) in
  change (reverse <$> white_space) with r.
  cbn [drop_one strip].
  repeat match goal with
         | |- context [(?x =? b)%N] =>
             destruct (N.eqb_spec x b) as [<-|_]; [lia|cbn iota]
         end.
  done.
Qed.

(** A text between visible bytes is its own trimming. *)
Lemma TrimSpace_plain s : plain s → TrimSpace s = s.
Proof.
  intros [(a & Ha & Hva) (z & Hz & Hvz)]. apply TrimSpace_stop.
  - destruct (bytes s) as [|b rest]; [done|]. injection Ha as ->.
    by apply drop_one_visible.
  - apply last_Some in Hz as (l' & ->). rewrite reverse_app.
    by apply drop_one_rev_visible.
Qed.

(** X12. A handshake either rejects and closes, or admits and stays.
    [handleClient] always writes the prompt first. Then either its last
    effect is the deferred [Close], it has written at most one more line and
    submitted no registration; or it registers the client under the trimmed
    reply, queues the welcome, starts both pumps and parks, and then the
    name has 2 to 32 bytes, is its own trimming, has no line terminator when
    the reply is one line, and the live set had room. *)
Theorem handshake_outcomes (st : ChatServer) (handle : nat) (reply : option string) :
  head (handleClient st handle reply) = Some (ConnWrite "Enter your username: ") ∧
  ((last (handleClient st handle reply) = Some ConnClose ∧
    length (handleClient st handle reply) ≤ 3 ∧
    ∀ client, SendRegister client ∉ handleClient st handle reply) ∨
   (∃ line client,
      reply = Some line ∧ client = mkClient handle (TrimSpace line) ∧
      handleClient st handle reply =
        [ConnWrite "Enter your username: "; SendRegister client;
         SendWelcome client (welcomeMsg (name client));
         GoWritePump client; GoReadPump client; Park] ∧
      2 ≤ len (name client) ≤ 32 ∧
      TrimSpace (name client) = name client ∧
      (∀ content, line = content +:+ nl → one_line content →
         one_line (name client)) ∧
      size (clients st) < MAX_CLIENTS)).
Proof.
  split; [done|].
  destruct (handleClient_cases st handle reply)
    as [[-> ->]|[(line & -> & Hlen & ->)|[(line & -> & Hlen & Hfull & ->)
       |(line & -> & Hlen & Hroom & ->)]]].
  - left. split; [done|]. split; [simpl; lia|]. no_register.
  - left. split; [done|]. split; [simpl; lia|]. no_register.
  - left. split; [done|]. split; [simpl; lia|]. no_register.
  - right. exists line, (mkClient handle (TrimSpace line)).
    split; [done|]. split; [done|]. split; [done|]. split; [done|].
    split; [apply TrimSpace_idemp|]. split; [|done].
    intros content -> Hc. simpl. rewrite TrimSpace_newline.
    by apply one_line_TrimSpace.
Qed.

(** X13. A name of 2 to 32 bytes that starts and ends with a visible ASCII
    character is admitted exactly as typed when there is room. *)
Theorem plain_name_admitted (st : ChatServer) (handle : nat) (u : string) :
  plain u → 2 ≤ len u ≤ 32 → size (clients st) < MAX_CLIENTS →
  handleClient st handle (Some (u +:+ nl)) =
    [ConnWrite "Enter your username: ";
     SendRegister (mkClient handle u);
     SendWelcome (mkClient handle u) (welcomeMsg u);
     GoWritePump (mkClient handle u); GoReadPump (mkClient handle u); Park].
Proof.
  intros Hp Hlen Hroom.
  assert (TrimSpace (u +:+ nl) = u) as Ht.
  { by rewrite TrimSpace_newline, TrimSpace_plain. }
  destruct (handleClient_cases st handle (Some (u +:+ nl)))
    as [[[=] _]|[(? & [= <-] & Hbad & _)|[(? & [= <-] & _ & Hfull & _)
       |(? & [= <-] & _ & _ & ->)]]].
  - rewrite Ht in Hbad. lia.
  - lia.
  - by rewrite Ht.
Qed.

Lemma plain_name_admitted_witness :
  plain "al" ∧ 2 ≤ len "al" ≤ 32 ∧ size (clients NewChatServer) < MAX_CLIENTS ∧
  handleClient NewChatServer 1 (Some ("al" +:+ nl)) =
    [ConnWrite "Enter your username: "; SendRegister al;
     SendWelcome al (welcomeMsg "al"); GoWritePump al; GoReadPump al; Park].
Proof.
  assert (plain "al") as Hp.
  { split; eexists; (split; [reflexivity|]); vm_compute; split; discriminate. }
  assert (2 ≤ len "al" ≤ 32) as Hl by (vm_compute; lia).
  assert (size (clients NewChatServer) < MAX_CLIENTS) as Hs by (vm_compute; lia).
  split; [exact Hp|]. split; [exact Hl|]. split; [exact Hs|].
  exact (plain_name_admitted NewChatServer 1 "al" Hp Hl Hs).
Defined.

(** X14. A chat line that starts and ends with a visible ASCII character,
    other than [exit], is forwarded exactly as typed, after the time stamp
    and the sender's name. *)
Theorem plain_line_forwarded
    (client : Client) (text : string) (now : Clock) (reads : list Read) :
  plain text → text ≠ "exit" →
  readPump client (ReadLine (text +:+ nl) now :: reads) =
    Broadcast (formattedMsg now client text) :: readPump client reads.
Proof.
  intros Hp Hne.
  assert (TrimSpace (text +:+ nl) = text) as Ht.
  { by rewrite TrimSpace_newline, TrimSpace_plain. }
  rewrite readPump_cons. simpl. rewrite Ht.
  rewrite decide_False by done. rewrite decide_False; [done|].
  intros ->. by destruct Hp as [(b & [=] & _) _].
Qed.

Lemma plain_line_forwarded_witness :
  plain "hello" ∧ "hello" ≠ "exit" ∧
  readPump al [ReadLine ("hello" +:+ nl) five_past_two] =
    [Broadcast (formattedMsg five_past_two al "hello")].
Proof.
  assert (plain "hello") as Hp.
  { split; eexists; (split; [reflexivity|]); vm_compute; split; discriminate. }
  assert ("hello" ≠ "exit") as Hn by discriminate.
  split; [exact Hp|]. split; [exact Hn|].
  exact (plain_line_forwarded al "hello" five_past_two [] Hp Hn).
Defined.

(** * The terminal client against the server *)

(** ** The user name *)

Lemma substring_all n s : len s ≤ n → String.substring 0 n s = s.
Proof.
  revert n. induction s as [|a s IH]; intros n Hn; [by destruct n|].
  destruct n as [|n]; [simpl in Hn; lia|]. simpl. f_equal. apply IH.
  simpl in Hn. unfold len in *. lia.
Qed.

Lemma len_app a b : len (a +:+ b) = len a + len b.
Proof. rewrite <- !len_bytes, bytes_app, length_app. done. Qed.

Lemma one_line_cut_newline s : one_line (cut_newline s).
Proof.
  unfold one_line. induction s as [|a s IH]; simpl; [apply not_elem_of_nil|].
  destruct (Ascii.eqb_spec a LF) as [->|Hne]; [apply not_elem_of_nil|].
  change (bytes (String a (cut_newline s)))
    with (N_of_ascii a :: bytes (cut_newline s)).
  apply not_elem_of_cons. split; [|done].
  intros Heq. apply Hne. rewrite <- (ascii_N_embedding a), <- Heq. done.
Qed.

(** X15. The name the terminal client sends, and what the server makes of
    it. When [main] gets past its own length check it sends the name it
    read, which holds no line terminator, followed by one line terminator;
    the server never finds that name too long. It rejects it as too short
    exactly when trimming leaves fewer than 2 bytes, and otherwise (room
    permitting) registers the client under the trimmed name. *)
Theorem client_hello_meets_server
    (stdin wire : string) (st : ChatServer) (handle : nat) :
  client_hello stdin = Some wire →
  ∃ username,
    wire = username +:+ nl ∧ one_line username ∧ 2 ≤ len username ≤ 32 ∧
    len (TrimSpace wire) ≤ 32 ∧
    handleClient st handle (Some wire) =
      if decide (len (TrimSpace username) < 2) then
        [ConnWrite "Enter your username: ";
         ConnWrite ("Username must be 2-32 characters." +:+ nl); ConnClose]
      else if decide (MAX_CLIENTS ≤ size (clients st)) then
        [ConnWrite "Enter your username: ";
         ConnWrite ("Server is full. Try again later." +:+ nl); ConnClose]
      else
        [ConnWrite "Enter your username: ";
         SendRegister (mkClient handle (TrimSpace username));
         SendWelcome (mkClient handle (TrimSpace username))
                     (welcomeMsg (TrimSpace username));
         GoWritePump (mkClient handle (TrimSpace username));
         GoReadPump (mkClient handle (TrimSpace username)); Park].
Proof.
  unfold client_hello. set (username := read_username stdin).
  destruct (Nat.ltb_spec (len username) 2) as [Hlo|Hlo]; [done|].
  destruct (Nat.ltb_spec 32 (len username)) as [Hhi|Hhi]; [done|].
  cbn [orb]. intros [= <-]. exists username.
  assert (snprintf_line 128 username = username +:+ nl) as ->.
  { unfold snprintf_line. apply substring_all. rewrite len_app.
    change (len nl) with 1. lia. }
  split; [done|]. split; [apply one_line_cut_newline|]. split; [done|].
  rewrite TrimSpace_newline. pose proof (len_TrimSpace_le username) as Hle.
  split; [lia|].
  destruct (handleClient_cases st handle (Some (username +:+ nl)))
    as [[[=] _]|[(? & [= <-] & Hbad & ->)|[(? & [= <-] & Hok & Hfull & ->)
       |(? & [= <-] & Hok & Hroom & ->)]]];
    rewrite TrimSpace_newline in *.
  - rewrite decide_True; [done|lia].
  - rewrite decide_False by lia. by rewrite decide_True.
  - rewrite decide_False by lia. rewrite decide_False by lia. done.
Qed.

Lemma client_hello_meets_server_witness :
  client_hello ("al" +:+ nl +:+ "hello") = Some ("al" +:+ nl) ∧
  ∃ username,
    "al" +:+ nl = username +:+ nl ∧ one_line username ∧
    2 ≤ len username ≤ 32 ∧ len (TrimSpace ("al" +:+ nl)) ≤ 32.
Proof.
  assert (client_hello ("al" +:+ nl +:+ "hello") = Some ("al" +:+ nl)) as Hc
    by (vm_compute; reflexivity).
  split; [exact Hc|].
  destruct (client_hello_meets_server _ _ NewChatServer 1 Hc)
    as (username & H1 & H2 & H3 & H4 & _).
  exists username. auto.
Defined.

(** ** The input loop *)

Lemma len_0 s : len s = 0 → s = "".
Proof. destruct s; [done|]. unfold len. simpl. done. Qed.

Lemma process_command_quit msg :
  snd (process_command msg) = true ↔ msg = "/quit".
Proof.
  unfold process_command.
  repeat (case_decide; subst; simpl; try (split; (done || discriminate))).
Qed.

(** X16. Everything the client's loop sends is one whole line: for inputs as
    [mvwgetnstr] gives them, each [send] carries a non-empty text that does
    not start with a slash and holds no line terminator, followed by one
    line terminator, which is a line as the server's [ReadString] returns
    it. *)
Theorem main_loop_sends_lines (rounds : list Round) :
  Forall (λ r, sendable (typed r)) rounds →
  Forall (λ wire, ∃ content, wire = content +:+ nl ∧ one_line content ∧
                  content ≠ "" ∧ is_command content = false)
         (main_loop rounds).
Proof.
  assert (Hbye : ∃ content, goodbye = content +:+ nl ∧ one_line content ∧
                  content ≠ "" ∧ is_command content = false).
  { exists "exit". repeat split; [no_newline|done]. }
  induction 1 as [|r rounds [Hlen Hone] _ IH]; simpl; [constructor|].
  destruct (connected_now r); cbn [negb]; [|by repeat constructor].
  destruct (Nat.eqb_spec (len (typed r)) 0) as [H0|H0]; [done|].
  destruct (is_command (typed r)) eqn:Hc.
  { destruct (snd (process_command (typed r))); [by repeat constructor|done]. }
  constructor.
  - exists (typed r). split.
    + unfold snprintf_line. apply substring_all. rewrite len_app.
      change (len nl) with 1. lia.
    + repeat split; [done| |done]. intros E. rewrite E in H0. by apply H0.
  - destruct (send_result r); [done|by repeat constructor|done].
Qed.

Lemma main_loop_sends_lines_witness :
  Forall (λ r, sendable (typed r)) chat_session ∧
  Forall (λ wire, ∃ content, wire = content +:+ nl ∧ one_line content ∧
                  content ≠ "" ∧ is_command content = false)
         (main_loop chat_session).
Proof.
  assert (Forall (λ r, sendable (typed r)) chat_session) as Hs.
  { repeat constructor; try (vm_compute; lia); no_newline. }
  split; [exact Hs|]. exact (main_loop_sends_lines chat_session Hs).
Defined.

Lemma readPump_stopped client reads :
  Exists stops reads →
  ∃ texts, readPump client reads = (Broadcast <$> texts) ++ [Unregister client].
Proof.
  induction reads as [|r reads IH]; [by intros ?%Exists_nil|].
  rewrite readPump_cons. destruct (decide (stops r)) as [Hr|Hr]; [by exists []|].
  intros [?|Hex]%Exists_cons; [done|]. destruct (IH Hex) as (texts & ->).
  destruct r as [line now|]; [|by destruct Hr].
  destruct (decide (TrimSpace line = "")); [by exists texts|].
  by eexists (_ :: texts).
Qed.

Lemma TrimSpace_goodbye : TrimSpace goodbye = "exit".
Proof. by vm_compute. Qed.

(** X17. Leaving says [exit]. When a turn ends the loop of [main] (the
    connection is down, the user typed [/quit], or a send broke), the last
    thing sent is [cleanup]'s [exit] line; and a server pump that reads what
    the client sent, line by line, ends with one deregistration of the
    client, whatever comes after on the connection. *)
Theorem leaving_says_exit (rounds : list Round) :
  Exists ends_loop rounds →
  (∃ sent, main_loop rounds = sent ++ [goodbye]) ∧
  ∀ client clocks more,
    length clocks = length (main_loop rounds) →
    ∃ texts,
      readPump client (zip_with ReadLine (main_loop rounds) clocks ++ more) =
        (Broadcast <$> texts) ++ [Unregister client].
Proof.
  intros Hex.
  assert (∃ sent, main_loop rounds = sent ++ [goodbye]) as [sent Hsent].
  { induction Hex as [r rounds Hr|r rounds _ IH]; cbn [main_loop].
    - destruct (connected_now r) eqn:Hc; cbn [negb]; [|by exists []].
      destruct Hr as [?|[Hq|(Hne & Hcmd & Hs)]]; [congruence| |].
      + rewrite Hq. change (len "/quit" =? 0) with false.
        change (is_command "/quit") with true. cbn iota.
        rewrite (proj2 (process_command_quit "/quit") eq_refl). by exists [].
      + destruct (Nat.eqb_spec (len (typed r)) 0) as [H0|H0].
        { by apply len_0 in H0. }
        rewrite Hcmd, Hs. by eexists [_].
    - destruct IH as [sent IH].
      destruct (connected_now r); cbn [negb]; [|by exists []].
      destruct (len (typed r) =? 0); [by exists sent|].
      destruct (is_command (typed r)).
      { destruct (snd (process_command (typed r))); [by exists []|by exists sent]. }
      destruct (send_result r); [|by eexists [_]|]; rewrite IH;
        by eexists (_ :: sent). }
  split; [by exists sent|]. intros client clocks more Hlen.
  apply readPump_stopped, Exists_app. left. rewrite Hsent in *.
  rewrite length_app in Hlen. simpl in Hlen.
  assert (∃ cs now, clocks = cs ++ [now] ∧ length cs = length sent)
    as (cs & now & -> & Hcs).
  { destruct (decide (clocks = [])) as [->|Hne]; [simpl in Hlen; lia|].
    destruct (exists_last Hne) as (cs & now & ->). exists cs, now.
    split; [done|]. rewrite length_app in Hlen. simpl in Hlen. lia. }
  rewrite zip_with_app by done. apply Exists_app. right. left.
  simpl. apply TrimSpace_goodbye.
Qed.

Lemma leaving_says_exit_witness :
  Exists ends_loop chat_session ∧
  ∃ sent, main_loop chat_session = sent ++ [goodbye].
Proof.
  assert (Exists ends_loop chat_session) as He.
  { right. right. left. right. left. reflexivity. }
  split; [exact He|]. destruct (leaving_says_exit chat_session He) as [H _].
  exact H.
Defined.

(** X18. A typed chat line reaches the room trimmed. For a non-empty input
    that is not a command the client sends the input and a line terminator;
    the server pump reading that line deregisters the client if the input
    trims to [exit], ignores it if it is white space only, and otherwise
    broadcasts the trimmed input under the client's name. *)
Theorem typed_text_reaches_room
    (r : Round) (rounds : list Round) (client : Client) (now : Clock)
    (reads : list Read) :
  connected_now r = true → typed r ≠ "" → is_command (typed r) = false →
  sendable (typed r) →
  (∃ tail, main_loop (r :: rounds) = (typed r +:+ nl) :: tail) ∧
  readPump client (ReadLine (typed r +:+ nl) now :: reads) =
    if decide (TrimSpace (typed r) = "exit") then [Unregister client]
    else if decide (TrimSpace (typed r) = "") then readPump client reads
    else Broadcast (formattedMsg now client (TrimSpace (typed r)))
         :: readPump client reads.
Proof.
  intros Hc Hne Hcmd [Hlen _]. split.
  - cbn [main_loop]. rewrite Hc. cbn [negb].
    destruct (Nat.eqb_spec (len (typed r)) 0) as [H0|H0].
    { by apply len_0 in H0. }
    rewrite Hcmd. unfold snprintf_line. rewrite substring_all.
    + by eexists.
    + rewrite len_app. change (len nl) with 1. lia.
  - pose proof (TrimSpace_newline (typed r)) as E.
    destruct (decide (TrimSpace (typed r) = "exit")) as [He|He].
    { apply readPump_exit. by rewrite E. }
    destruct (decide (TrimSpace (typed r) = "")) as [Hb|Hb].
    { apply readPump_empty. by rewrite E. }
    rewrite <- E. apply readPump_text; by rewrite E.
Qed.

Lemma typed_text_reaches_room_witness :
  connected_now padded_hello = true ∧ typed padded_hello ≠ "" ∧
  is_command (typed padded_hello) = false ∧ sendable (typed padded_hello) ∧
  (∃ tail, main_loop [padded_hello] = (typed padded_hello +:+ nl) :: tail) ∧
  readPump al [ReadLine (typed padded_hello +:+ nl) five_past_two] =
    if decide (TrimSpace (typed padded_hello) = "exit") then [Unregister al]
    else if decide (TrimSpace (typed padded_hello) = "") then readPump al []
    else [Broadcast (formattedMsg five_past_two al (TrimSpace (typed padded_hello)))].
Proof.
  assert (typed padded_hello ≠ "") as Hne by discriminate.
  assert (sendable (typed padded_hello)) as Hs
    by (split; [vm_compute; lia|no_newline]).
  split; [reflexivity|]. split; [exact Hne|]. split; [reflexivity|].
  split; [exact Hs|].
  exact (typed_text_reaches_room padded_hello [] al five_past_two []
           eq_refl Hne eq_refl Hs).
Defined.

(** X19. Commands stay local. While the user types commands and empty lines
    only, the client sends nothing to the server, except [cleanup]'s [exit]
    line once [/quit] is among them: [/name] in particular never tells the
    server. *)
Theorem commands_stay_local (rounds : list Round) :
  Forall (λ r, connected_now r = true ∧
               (typed r = "" ∨ is_command (typed r) = true)) rounds →
  main_loop rounds =
    if decide (Exists (λ r, typed r = "/quit") rounds) then [goodbye] else [].
Proof.
  induction 1 as [|r rounds [Hc Hr] _ IH].
  { cbn [main_loop]. by destruct (decide _) as [?%Exists_nil|]. }
  cbn [main_loop]. rewrite Hc. cbn [negb].
  destruct Hr as [Hr|Hr].
  - rewrite Hr. change (len "" =? 0) with true. cbn iota. rewrite IH.
    destruct (decide (Exists _ rounds)) as [Hex|Hex].
    + rewrite decide_True; [done|]. by right.
    + rewrite decide_False; [done|]. intros [Hq|?]%Exists_cons; [|done].
      by rewrite Hr in Hq.
  - destruct (Nat.eqb_spec (len (typed r)) 0) as [H0|H0].
    { apply len_0 in H0. by rewrite H0 in Hr. }
    rewrite Hr. destruct (snd (process_command (typed r))) eqn:Hq.
    + apply process_command_quit in Hq. rewrite decide_True; [done|]. by left.
    + rewrite IH. destruct (decide (Exists _ rounds)) as [Hex|Hex].
      * rewrite decide_True; [done|]. by right.
      * rewrite decide_False; [done|]. intros [Hq'|?]%Exists_cons; [|done].
        apply process_command_quit in Hq'. congruence.
Qed.

Lemma commands_stay_local_witness :
  Forall (λ r, connected_now r = true ∧
               (typed r = "" ∨ is_command (typed r) = true)) only_commands ∧
  main_loop only_commands =
    if decide (Exists (λ r, typed r = "/quit") only_commands)
    then [goodbye] else [].
Proof.
  assert (Forall (λ r, connected_now r = true ∧
                       (typed r = "" ∨ is_command (typed r) = true))
                 only_commands) as Hf.
  { repeat constructor; (by left) || (by right). }
  split; [exact Hf|]. exact (commands_stay_local only_commands Hf).
Defined.

(** ** The receive thread *)

Lemma nul_free_cons a s : nul_free (String a s) ↔ a ≠ NUL ∧ nul_free s.
Proof.
  unfold nul_free.
  change (bytes (String a s)) with (N_of_ascii a :: bytes s).
  rewrite not_elem_of_cons. split; intros [Ha Hs]; (split; [|done]).
  - intros ->. by apply Ha.
  - intros E. apply Ha. rewrite <- (ascii_N_embedding a), <- E. done.
Qed.

Lemma one_line_cons a s : one_line (String a s) ↔ a ≠ LF ∧ one_line s.
Proof.
  unfold one_line.
  change (bytes (String a s)) with (N_of_ascii a :: bytes s).
  rewrite not_elem_of_cons. split; intros [Ha Hs]; (split; [|done]).
  - intros ->. by apply Ha.
  - intros E. apply Ha. rewrite <- (ascii_N_embedding a), <- E. done.
Qed.

Lemma nul_free_app a b : nul_free (a +:+ b) ↔ nul_free a ∧ nul_free b.
Proof. unfold nul_free. rewrite bytes_app, not_elem_of_app. done. Qed.

Lemma eqb_false a b : a ≠ b → Ascii.eqb a b = false.
Proof. intros H. by destruct (Ascii.eqb_spec a b). Qed.

Lemma c_str_cut s t : nul_free s → c_str (s +:+ String NUL t) = s.
Proof.
  induction s as [|a s IH]; [done|]. intros [Ha Hs]%nul_free_cons.
  change (String a s +:+ String NUL t) with (String a (s +:+ String NUL t)).
  cbn [c_str]. rewrite (eqb_false _ _ Ha). by rewrite IH.
Qed.

Lemma c_str_id s : nul_free s → c_str s = s.
Proof.
  induction s as [|a s IH]; [done|]. intros [Ha Hs]%nul_free_cons.
  cbn [c_str]. rewrite (eqb_false _ _ Ha). by rewrite IH.
Qed.

Lemma end_line_cons a b s :
  end_line (String a (String b s)) = String a (end_line (String b s)).
Proof. done. Qed.

Lemma end_line_newline s : end_line (s +:+ nl) = s +:+ String NUL "".
Proof.
  induction s as [|a s IH]; [done|].
  change (String a s +:+ nl) with (String a (s +:+ nl)).
  change (String a s +:+ String NUL "") with (String a (s +:+ String NUL "")).
  rewrite <- IH. destruct s as [|b s]; [done|].
  change (String b s +:+ nl) with (String b (s +:+ nl)). apply end_line_cons.
Qed.

Lemma end_line_id s : one_line s → end_line s = s.
Proof.
  induction s as [|a s IH]; [done|]. intros [Ha Hs]%one_line_cons.
  destruct s as [|b s].
  - cbn [end_line]. by rewrite (eqb_false _ _ Ha).
  - rewrite end_line_cons. by rewrite IH.
Qed.

Lemma nul_free_nl : nul_free nl.
Proof.
  unfold nul_free. vm_compute. intros H.
  apply elem_of_cons in H as [H|H]; [discriminate|]. by apply elem_of_nil in H.
Qed.

Lemma written_ends messages :
  messages ≠ [] → Forall nul_free messages →
  ∃ front, written messages = front +:+ nl ∧ nul_free front.
Proof.
  induction messages as [|m [|m' rest] IH]; [done| |]; intros _ Hnf.
  - exists m. apply Forall_cons in Hnf as [Hm _]. split; [|done].
    cbn [written]. unfold line. by rewrite append_assoc.
  - apply Forall_cons in Hnf as [Hm Hrest].
    destruct IH as (front & Hfront & Hnul); [done|done|].
    exists (line m +:+ front). split.
    + change (written (m :: m' :: rest)) with (line m +:+ written (m' :: rest)).
      by rewrite Hfront, append_assoc.
    + apply nul_free_app. split; [|done]. apply nul_free_app. split; [done|].
      apply nul_free_nl.
Qed.

(** X20. The receive thread shows whole writes verbatim. When one [recv]
    returns what [writePump] wrote for one or more queued texts that hold no
    NUL, the chat window gets exactly those bytes: the final line terminator
    the thread cuts off is the one it prints. *)
Theorem whole_writes_shown_verbatim (messages : list string) (recvs : list RecvResult) :
  messages ≠ [] → Forall nul_free messages →
  receive_messages (Chunk (written messages) :: recvs) =
    Chat (written messages) :: receive_messages recvs.
Proof.
  intros Hne Hnf. destruct (written_ends messages Hne Hnf) as (front & -> & Hfront).
  cbn [receive_messages]. by rewrite end_line_newline, c_str_cut.
Qed.

Lemma whole_writes_shown_verbatim_witness :
  ["one"; "two"] ≠ [] ∧ Forall nul_free ["one"; "two"] ∧
  receive_messages [Chunk (written ["one"; "two"]); Eof] =
    [Chat (written ["one"; "two"]); StatusBar "Server disconnected" true].
Proof.
  assert (["one"; "two"] ≠ []) as Hne by discriminate.
  assert (Forall nul_free ["one"; "two"]) as Hnf.
  { repeat constructor; unfold nul_free; vm_compute; intros H;
      repeat (apply elem_of_cons in H as [H|H]; [discriminate H|]);
      by apply elem_of_nil in H. }
  split; [exact Hne|]. split; [exact Hnf|].
  exact (whole_writes_shown_verbatim ["one"; "two"] [Eof] Hne Hnf).
Defined.

(** X21. A write that arrives in two pieces is shown broken. When the line
    [writePump] wrote for a text comes in two [recv]s, the first one ending
    inside the line, the chat window gets a line terminator after the first
    piece that the server never sent. *)
Theorem split_write_shown_broken (a b : string) (recvs : list RecvResult) :
  one_line a → nul_free (a +:+ b) →
  a +:+ (b +:+ nl) = line (a +:+ b) ∧
  receive_messages (Chunk a :: Chunk (b +:+ nl) :: recvs) =
    Chat (a +:+ nl) :: Chat (b +:+ nl) :: receive_messages recvs.
Proof.
  intros Hone [Ha Hb]%nul_free_app. split.
  { unfold line. by rewrite append_assoc. }
  cbn [receive_messages].
  by rewrite end_line_newline, c_str_cut, end_line_id, c_str_id.
Qed.

Lemma split_write_shown_broken_witness :
  one_line "he" ∧ nul_free ("he" +:+ "llo") ∧
  receive_messages [Chunk "he"; Chunk ("llo" +:+ nl)] =
    [Chat ("he" +:+ nl); Chat ("llo" +:+ nl)].
Proof.
  assert (one_line "he") as Ho by no_newline.
  assert (nul_free ("he" +:+ "llo")) as Hn.
  { unfold nul_free; vm_compute; intros H;
      repeat (apply elem_of_cons in H as [H|H]; [discriminate H|]);
      by apply elem_of_nil in H. }
  split; [exact Ho|]. split; [exact Hn|].
  destruct (split_write_shown_broken "he" "llo" [] Ho Hn) as [_ H]. exact H.
Defined.
